(** * Union-find on a graph store: a model of [neo4j_union_find.py]

    The Python module keeps a disjoint-set forest in a Neo4j database:
    element nodes carry the properties [id], [type], [name] and [weight],
    and every node has a [HAS_PARENT] relationship; a root is a node whose
    parent relationship is a self-loop.

    The database is modelled as an explicit store that every operation
    threads through: the list of nodes in creation order, the list of
    [HAS_PARENT] relationships in creation order (a list, so that a node
    with no parent or with several parents is representable), each with
    the identity the database gives it, and the supplies of fresh
    identifiers that stand for [uuid4()] and for the database's
    relationship identities.  A node is identified with its [id]
    property, which [uuid4()] makes unique.  A query is evaluated on the
    store as it is when the query is run.  Exceptions keep the store
    they were raised in, as in Python. *)

From Stdlib Require Import List Arith Lia String Bool.
Import ListNotations.
Local Open Scope nat_scope.

(* ================================================================= *)
(** ** Data model *)

(** [Node(id=.., type=.., name=.., weight=..)].  The weight is a Python
    integer that starts at 1 and only grows by addition. *)
Record Node := mkNode {
  id : nat;          (* uuid4().hex, drawn from the store's supply *)
  type : string;
  name : string;
  weight : nat
}.

Definition Rel := (nat * nat)%type.   (* HasParent(start, end), by node id *)

Record Store := mkStore {
  nodes : list Node;
  relationships : list (nat * Rel);   (* (identity, HasParent(start, end)) *)
  next_uuid : nat;
  next_rel : nat
}.

(** The relationships without their identities. *)
Definition rels (s : Store) : list Rel := map snd (relationships s).

Definition empty_store : Store := mkStore [] [] 0 0.

(** The exceptions the module can raise: [max] of an empty list, [[0]]
    of an empty result, [separate] of [None]. *)
Inductive error := ValueError | IndexError | TypeError.

Inductive result (A : Type) :=
| Ok (a : A) (s : Store)
| Raise (e : error) (s : Store).
Arguments Ok {A} a s.
Arguments Raise {A} e s.

Definition M (A : Type) := Store -> result A.

Definition ret {A} (a : A) : M A := fun s => Ok a s.

Definition bind {A B} (m : M A) (k : A -> M B) : M B :=
  fun s => match m s with
           | Ok a s' => k a s'
           | Raise e s' => Raise e s'
           end.

Notation "x <- m ;; k" := (bind m (fun x => k))
  (at level 61, m at next level, right associativity).
Notation "m ;;; k" := (bind m (fun _ => k))
  (at level 61, right associativity).

Definition store_of {A} (r : result A) : Store :=
  match r with Ok _ s => s | Raise _ s => s end.

(** [for x in l: body x] *)
Fixpoint for_each {A} (l : list A) (body : A -> M unit) : M unit :=
  match l with
  | [] => ret tt
  | x :: t => body x ;;; for_each t body
  end.

(* ================================================================= *)
(** ** The graph store's primitives *)

Definition rel_eqb (r1 r2 : Rel) : bool :=
  (fst r1 =? fst r2) && (snd r1 =? snd r2).

(** [NodeSelector(graph).select(type=.., name=..).first()] *)
Definition select (ty nm : string) (s : Store) : option Node :=
  List.find (fun n => String.eqb (type n) ty && String.eqb (name n) nm) (nodes s).

(** [graph.match_one(start_node=.., rel_type="HAS_PARENT", end_node=..)] *)
Definition match_one (start : nat) (end_node : option nat) (s : Store)
  : option (nat * Rel) :=
  List.find (fun r => (fst (snd r) =? start) &&
                      match end_node with
                      | None => true
                      | Some e => snd (snd r) =? e
                      end) (relationships s).

Definition same_rel (r1 r2 : nat * Rel) : bool :=
  (fst r1 =? fst r2) && rel_eqb (snd r1) (snd r2).

Fixpoint remove_first (r : nat * Rel) (l : list (nat * Rel)) : list (nat * Rel) :=
  match l with
  | [] => []
  | x :: t => if same_rel x r then t else x :: remove_first r t
  end.

(** [graph.separate(rel)] deletes the relationship [rel];
    [graph.separate(None)] is a [TypeError]. *)
Definition separate (r : option (nat * Rel)) : M unit := fun s =>
  match r with
  | None => Raise TypeError s
  | Some r => Ok tt (mkStore (nodes s) (remove_first r (relationships s))
                             (next_uuid s) (next_rel s))
  end.

(** [graph.create(HasParent(a, b))]: a new relationship, with a new
    identity. *)
Definition create_rel (a b : nat) : M unit := fun s =>
  Ok tt (mkStore (nodes s) (relationships s ++ [(next_rel s, (a, b))])
                 (next_uuid s) (S (next_rel s))).

(** [graph.create(node)] *)
Definition create_node (n : Node) : M unit := fun s =>
  Ok tt (mkStore (nodes s ++ [n]) (relationships s) (next_uuid s) (next_rel s)).

(** [uuid4().hex] *)
Definition uuid4 : M nat := fun s =>
  Ok (next_uuid s) (mkStore (nodes s) (relationships s) (S (next_uuid s)) (next_rel s)).

(** [graph.push(node)]: write the local properties of [node] back. *)
Definition push (n : Node) : M unit := fun s =>
  Ok tt (mkStore (map (fun m => if id m =? id n then n else m) (nodes s))
                 (relationships s) (next_uuid s) (next_rel s)).

Definition node_by_id (i : nat) (s : Store) : option Node :=
  List.find (fun n => id n =? i) (nodes s).

(** *** Variable-length patterns

    Cypher matches [-[:HAS_PARENT*]->] against every path of one or more
    relationships in which no relationship occurs twice.  [picks l] lists
    each element of [l] with the rest of the list; [trails] follows every
    relationship leaving the current node and goes on in the remaining
    ones, returning the end node of each path with the relationships the
    path did not use. *)

Fixpoint picks {A} (l : list A) : list (A * list A) :=
  match l with
  | [] => []
  | x :: t => (x, t) :: map (fun p => (fst p, x :: snd p)) (picks t)
  end.

Fixpoint trails (fuel : nat) (es : list Rel) (cur : nat) : list (nat * list Rel) :=
  match fuel with
  | 0 => []
  | S f =>
      flat_map (fun p =>
                  if fst (fst p) =? cur
                  then (snd (fst p), snd p) :: trails f (snd p) (snd (fst p))
                  else [])
               (picks es)
  end.

Definition var_paths (es : list Rel) (cur : nat) : list (nat * list Rel) :=
  trails (List.length es) es cur.

(** [match ({id: x})-[:HAS_PARENT*]->(r)-[:HAS_PARENT]->(r) return r] *)
Definition root_query (x : nat) (s : Store) : list Node :=
  flat_map (fun p =>
              flat_map (fun _ => match node_by_id (fst p) s with
                                 | Some n => [n]
                                 | None => []
                                 end)
                       (filter (rel_eqb (fst p, fst p)) (snd p)))
           (var_paths (rels s) x).

(** [match (r {id: x}) match (a)-[:HAS_PARENT*]->(r) return a] *)
Definition ancestor_query (x : nat) (s : Store) : list Node :=
  flat_map (fun a =>
              flat_map (fun p => if fst p =? x then [a] else [])
                       (var_paths (rels s) (id a)))
           (nodes s).

(* ================================================================= *)
(** ** The disjoint-set engine *)

(** [_set_parent(node, parent)]: the first relationship that leaves
    [node] is deleted, then a relationship to [parent] is created. *)
Definition _set_parent (node parent : Node) : M unit := fun s =>
  let parent_relation := match_one (id node) None s in
  (separate parent_relation ;;;
   create_rel (id node) (id parent)) s.

(** [graph.match_one(start_node=n, rel_type="HAS_PARENT", end_node=n)
    is not None] *)
Definition is_root (n : Node) (s : Store) : bool :=
  match match_one (id n) (Some (id n)) s with
  | Some _ => true
  | None => false
  end.

(** [find(type, name)].  The result of the ancestor query is taken
    before the loop runs. *)
Definition find (ty nm : string) : M Node := fun s =>
  match select ty nm s with
  | None =>
      (i <- uuid4 ;;
       let node := mkNode i ty nm 1 in
       create_node node ;;;
       create_rel (id node) (id node) ;;;
       ret node) s
  | Some existing =>
      if is_root existing s then Ok existing s
      else
        match root_query (id existing) s with
        | [] => Raise IndexError s
        | root :: _ =>
            let ancestors := ancestor_query (id root) s in
            (for_each ancestors (fun ancestor => _set_parent ancestor root) ;;;
             ret root) s
        end
  end.

(** [[self.find(type=x[0], name=x[1]) for x in objects]] *)
Fixpoint find_all (objects : list (string * string)) : M (list Node) :=
  match objects with
  | [] => ret []
  | x :: t =>
      r <- find (fst x) (snd x) ;;
      rs <- find_all t ;;
      ret (r :: rs)
  end.

(** [max(roots, key=itemgetter('weight'))]: the first maximal element;
    [ValueError] on an empty list. *)
Definition max_weight (roots : list Node) : option Node :=
  match roots with
  | [] => None
  | r :: t =>
      Some (fold_left (fun best x => if weight best <? weight x then x else best) t r)
  end.

(** [n['weight'] += w] on the local node object. *)
Definition add_weight (n : Node) (w : nat) : Node :=
  mkNode (id n) (type n) (name n) (weight n + w).

(** The loop of [union]; [heaviest] is the local node object, whose
    weight grows as the loop goes and is pushed to the store.  The
    weights of the other roots are the ones the finds returned: nothing
    writes to them in between. *)
Fixpoint merge (heaviest : Node) (roots : list Node) : M unit :=
  match roots with
  | [] => ret tt
  | r :: t =>
      if negb (id r =? id heaviest) then
        let heaviest' := add_weight heaviest (weight r) in
        push heaviest' ;;;
        _set_parent r heaviest' ;;;
        merge heaviest' t
      else merge heaviest t
  end.

(** [union(objects)] *)
Definition union (objects : list (string * string)) : M unit :=
  roots <- find_all objects ;;
  match max_weight roots with
  | None => fun s => Raise ValueError s
  | Some heaviest => merge heaviest roots
  end.

(** A row of the stream: a dict from identifier type to value, where a
    value may be [None] or the empty string. *)
Definition Row := list (string * option string).

(** Python's truth value of a row's value. *)
Definition truthy (v : option string) : bool :=
  match v with
  | Some x => negb (String.eqb x EmptyString)
  | None => false
  end.

(** [filter(itemgetter(1), row.items())] *)
Definition matches (row : Row) : list (string * string) :=
  flat_map (fun kv => match snd kv with
                      | Some v => if truthy (Some v) then [(fst kv, v)] else []
                      | None => []
                      end) row.

(** [union_from_stream(stream)]; an exception ends the loop. *)
Fixpoint union_from_stream (stream : list Row) : M unit :=
  match stream with
  | [] => ret tt
  | row :: t => union (matches row) ;;; union_from_stream t
  end.

(** [global_id(type, name)] *)
Definition global_id (ty nm : string) : M nat :=
  n <- find ty nm ;; ret (id n).

(* ================================================================= *)
(** ** Paths in the parent graph *)

(** The relationships that leave [a]. *)
Definition out_edges (es : list Rel) (a : nat) : list Rel :=
  filter (fun e => fst e =? a) es.

(** A path of one or more relationships. *)
Inductive path (es : list Rel) : nat -> nat -> Prop :=
| path_one a b : In (a, b) es -> path es a b
| path_snoc a b c : path es a b -> In (b, c) es -> path es a c.

(** [r] is the root of [a]'s tree: it carries a self-loop and is [a]
    itself or reachable from [a]. *)
Definition rootof (es : list Rel) (a r : nat) : Prop :=
  In (r, r) es /\ (a = r \/ path es a r).

(** No node has two different parents. *)
Definition functional (es : list Rel) : Prop :=
  forall a b c, In (a, b) es -> In (a, c) es -> b = c.

(* ================================================================= *)
(** ** Invariants and notions used in the statements *)

(** The store after [find] has created the element [(ty, nm)]. *)
Definition with_new_node (ty nm : string) (s : Store) : Store :=
  mkStore (nodes s ++ [mkNode (next_uuid s) ty nm 1])
          (relationships s ++ [(next_rel s, (next_uuid s, next_uuid s))])
          (S (next_uuid s)) (S (next_rel s)).

(** The relationships that leave [a], with their identities. *)
Definition out_rels (l : list (nat * Rel)) (a : nat) : list (nat * Rel) :=
  filter (fun r => fst (snd r) =? a) l.

(** The relationships that leave the nodes outside [A] are in [l'] the
    ones they are in [l]. *)
Definition kept (A : nat -> bool) (l l' : list (nat * Rel)) : Prop :=
  forall x, A x = false -> out_rels l' x = out_rels l x.

(** [es'] is [es] with the parent relationship of every node selected by
    [A] replaced by one relationship to [q]. *)
Definition redirected (A : nat -> bool) (q : nat) (es es' : list Rel) : Prop :=
  forall x, out_edges es' x = if A x then [(x, q)] else out_edges es x.

(** Exactly one parent relationship leaves [x]. *)
Definition single (es : list Rel) (x : nat) : Prop :=
  exists p, out_edges es x = [(x, p)].

(** The invariant of the store: identifiers come from the supply and are
    unique, relationships join nodes, every node has exactly one parent
    relationship, and every node has a root. *)
Record wf (s : Store) : Prop := mk_wf {
  wf_fresh : forall i, In i (map id (nodes s)) -> i < next_uuid s;
  wf_ids : NoDup (map id (nodes s));
  wf_closed : forall a b, In (a, b) (rels s) ->
                          In a (map id (nodes s)) /\ In b (map id (nodes s));
  wf_parent : forall i, In i (map id (nodes s)) -> single (rels s) i;
  wf_rooted : forall i, In i (map id (nodes s)) -> exists r, rootof (rels s) i r
}.

(** [x] is the [id] of a node of [l]. *)
Definition among (l : list Node) (x : nat) : bool :=
  existsb (fun a => id a =? x) l.

(** [s'] has the nodes of [s], possibly more, and every node of [s]
    keeps its root. *)
Definition extends (s s' : Store) : Prop :=
  (exists new, nodes s' = nodes s ++ new) /\
  (forall a t, rootof (rels s) a t -> rootof (rels s') a t).

(** [find] returned [r] for the pair [x]: [r] is a node of the store and
    the root of the element that [x] names. *)
Definition resolves (s : Store) (x : string * string) (r : Node) : Prop :=
  In r (nodes s) /\
  exists e, select (fst x) (snd x) s = Some e /\ rootof (rels s) (id e) (id r).

(** What [push n] does to the stored node [m]. *)
Definition replace_node (n : Node) (m : Node) : Node :=
  if id m =? id n then n else m.

(** The total weight that the loop of [union] adds to [heaviest]. *)
Definition moved (heaviest : Node) (roots : list Node) : nat :=
  list_sum (map weight (filter (fun r => negb (id r =? id heaviest)) roots)).

(** What [select] looks at, and the identity of a node. *)
Definition key (n : Node) : nat * string * string := (id n, type n, name n).

(** The public operations, as a caller issues them. *)
Inductive call :=
| CallFind (ty nm : string)
| CallUnion (objects : list (string * string))
| CallUnionFromStream (stream : list Row)
| CallGlobalId (ty nm : string).

(** The store a call leaves behind, whether it returns or raises. *)
Definition run_call (s : Store) (c : call) : Store :=
  match c with
  | CallFind ty nm => store_of (find ty nm s)
  | CallUnion objects => store_of (union objects s)
  | CallUnionFromStream stream => store_of (union_from_stream stream s)
  | CallGlobalId ty nm => store_of (global_id ty nm s)
  end.

(** The store after a sequence of calls. *)
Definition run_calls (cs : list call) (s : Store) : Store :=
  fold_left run_call cs s.

(** The statement of C4 as the specification has it: [find] on an
    existing element that is not a root leaves the parent relationship
    of the root it returns as it was, the very same relationship. *)
Definition compression_spares_root (s : Store) (ty nm : string) : Prop :=
  forall e r s',
    select ty nm s = Some e -> is_root e s = false ->
    find ty nm s = Ok r s' ->
    out_rels (relationships s') (id r) = out_rels (relationships s) (id r).

(** The statement of C10 as the specification has it: the parent
    relationship of the heaviest root, when that root existed before the
    call, is after [union] the very same relationship as before. *)
Definition union_spares_heaviest (s : Store) (objects : list (string * string)) : Prop :=
  forall roots s1 heaviest s',
    find_all objects s = Ok roots s1 ->
    max_weight roots = Some heaviest ->
    In (id heaviest) (map id (nodes s)) ->
    union objects s = Ok tt s' ->
    out_rels (relationships s') (id heaviest) = out_rels (relationships s) (id heaviest).

(** The root that [find] would reach from [n], without touching the
    store. *)
Definition forest_root (n : Node) (s : Store) : option nat :=
  if is_root n s then Some (id n)
  else option_map id (hd_error (root_query (id n) s)).

(** The number of nodes whose root is [r]. *)
Definition class_size (r : nat) (s : Store) : nat :=
  List.length
    (filter (fun n => match forest_root n s with
                      | Some t => t =? r
                      | None => false
                      end) (nodes s)).

(** A store in which an element is two parents away from its root:
    "b" hangs under "a", which the third call hangs under "c". *)
Definition chained_store : Store :=
  run_calls [CallUnion [("t", "a"); ("t", "b")];
             CallUnion [("t", "c"); ("t", "d"); ("t", "e")];
             CallUnion [("t", "c"); ("t", "a")]]%string
            empty_store.

(** The identities of the relationships come from the supply: none is
    at or past the next one. *)
Definition rel_ids_ok (s : Store) : Prop :=
  forall i r, In (i, r) (relationships s) -> i < next_rel s.

(** [m] keeps the property [P] of the store, whether it returns or
    raises. *)
Definition preserves {A} (P : Store -> Prop) (m : M A) : Prop :=
  forall s, P s -> P (store_of (m s)).

(** Every node has a name that is not the empty string. *)
Definition names_nonempty (s : Store) : Prop :=
  forall n, In n (nodes s) -> name n <> EmptyString.

(** The [id] of the root of [n], 0 when the chain of [n] has none. *)
Definition root_id (s : Store) (n : Node) : nat :=
  match forest_root n s with
  | Some t => t
  | None => 0
  end.

(** The weight invariant: the weight of every root is the number of
    nodes of its set. *)
Definition weights_ok (s : Store) : Prop :=
  forall n, In n (nodes s) -> is_root n s = true -> weight n = class_size (id n) s.

(** The pair that names an element. *)
Definition pair_of (n : Node) : string * string := (type n, name n).

(** [s'] has the nodes of [s], with their [id], [type] and [name], in
    the same order, and possibly more after them. *)
Definition grows (s s' : Store) : Prop :=
  exists new, map key (nodes s') = map key (nodes s) ++ new.

(* ================================================================= *)
(** ** Basic facts about paths *)

Lemma rel_eqb_eq (x y : Rel) : rel_eqb x y = true <-> x = y.
Proof.
  destruct x as [a b], y as [c d]; unfold rel_eqb; simpl.
  rewrite andb_true_iff, !Nat.eqb_eq. split.
  - intros [-> ->]; reflexivity.
  - intros H; inversion H; auto.
Qed.

Lemma rel_eqb_refl (x : Rel) : rel_eqb x x = true.
Proof. apply rel_eqb_eq; reflexivity. Qed.

Lemma in_out_edges es a b : In (a, b) es <-> In (a, b) (out_edges es a).
Proof.
  unfold out_edges; rewrite filter_In; simpl; rewrite Nat.eqb_refl; tauto.
Qed.

Lemma out_edges_src es a e : In e (out_edges es a) -> fst e = a /\ In e es.
Proof.
  unfold out_edges; rewrite filter_In, Nat.eqb_eq; tauto.
Qed.

Lemma path_cons es a b c : In (a, b) es -> path es b c -> path es a c.
Proof.
  intros Hab Hbc; induction Hbc.
  - eapply path_snoc; [apply path_one|]; eassumption.
  - eapply path_snoc; eauto.
Qed.

Lemma path_trans es a b c : path es a b -> path es b c -> path es a c.
Proof.
  intros Hab Hbc; induction Hbc as [b c H | b c d _ IH H].
  - exact (path_snoc _ _ _ _ Hab H).
  - exact (path_snoc _ _ _ _ (IH Hab) H).
Qed.

Lemma path_incl es es' a b :
  (forall e, In e es -> In e es') -> path es a b -> path es' a b.
Proof.
  intros Hi Hp; induction Hp.
  - apply path_one; auto.
  - eapply path_snoc; eauto.
Qed.

(** The first step of a path can be chosen so that the rest of the path
    never leaves the start node again. *)
Lemma path_head es a b :
  path es a b ->
  exists c, In (a, c) es /\
            (c = b \/ path (filter (fun e => negb (fst e =? a)) es) c b).
Proof.
  intros Hp; induction Hp as [a b Hab | a b c Hp IH Hbc].
  - exists b; auto.
  - destruct IH as (d & Had & Hd).
    destruct (Nat.eq_dec b a) as [-> | Hne].
    + exists c; auto.
    + assert (Hbc' : In (b, c) (filter (fun e => negb (fst e =? a)) es)).
      { apply filter_In; split; [assumption|]; simpl.
        apply negb_true_iff, Nat.eqb_neq; assumption. }
      exists d; split; [assumption|]; right.
      destruct Hd as [-> | Hd].
      * apply path_one; assumption.
      * eapply path_snoc; eassumption.
Qed.

Lemma path_step es a b :
  path es a b -> exists c, In (a, c) es /\ (c = b \/ path es c b).
Proof.
  intros Hp; destruct (path_head _ _ _ Hp) as (c & Hac & [-> | Hc]).
  - exists b; auto.
  - exists c; split; [assumption|]; right.
    eapply path_incl; [|eassumption].
    intros e He; apply filter_In in He; tauto.
Qed.

Section Functional.
Variable es : list Rel.
Hypothesis Hfun : functional es.

Lemma path_from_root t b : In (t, t) es -> path es t b -> b = t.
Proof.
  intros Ht Hp; induction Hp as [a b Hab | a b c Hp IH Hbc].
  - symmetry; eapply Hfun; eassumption.
  - specialize (IH Ht); subst b. symmetry; eapply Hfun; eassumption.
Qed.

Lemma path_linear a x y :
  path es a x -> path es a y -> x = y \/ path es x y \/ path es y x.
Proof.
  intros Hx; revert y; induction Hx as [a x Hax | a b x Hab IH Hbx]; intros y Hy.
  - destruct (path_step _ _ _ Hy) as (c & Hac & Hc).
    assert (c = x) by (eapply Hfun; eassumption); subst c.
    destruct Hc; auto.
  - destruct (IH y Hy) as [<- | [Hby | Hyb]].
    + right; right; apply path_one; assumption.
    + destruct (path_step _ _ _ Hby) as (c & Hbc & Hc).
      assert (c = x) by (eapply Hfun; eassumption); subst c.
      destruct Hc; auto.
    + right; right; eapply path_snoc; eassumption.
Qed.

Lemma rootof_unique a t r : rootof es a t -> rootof es a r -> t = r.
Proof.
  intros [Ht Hat] [Hr Har].
  destruct Hat as [-> | Hat], Har as [Har | Har]; auto.
  - symmetry; eapply path_from_root; eassumption.
  - subst a; eapply path_from_root; eassumption.
  - destruct (path_linear _ _ _ Hat Har) as [? | [H | H]]; auto.
    + symmetry; eapply path_from_root; eassumption.
    + eapply path_from_root; eassumption.
Qed.

(** A node on a cycle is reached back from everything it reaches. *)
Lemma cycle_back a x : path es a a -> path es a x -> path es x a.
Proof.
  intros Haa Hx; induction Hx as [a x Hax | a b x Hab IH Hbx].
  - destruct (path_step _ _ _ Haa) as (c & Hac & Hc).
    assert (c = x) by (eapply Hfun; eassumption); subst c.
    destruct Hc as [-> | Hc]; assumption.
  - specialize (IH Haa).
    destruct (path_step _ _ _ IH) as (c & Hbc & Hc).
    assert (c = x) by (eapply Hfun; eassumption); subst c.
    destruct Hc as [-> | Hc]; assumption.
Qed.
End Functional.

(* ================================================================= *)
(** ** The variable-length pattern finds exactly the paths *)

Lemma picks_sound {A} (l : list A) x rest :
  In (x, rest) (picks l) ->
  In x l /\ (forall y, In y rest -> In y l) /\ List.length l = S (List.length rest).
Proof.
  revert x rest; induction l as [|h t IH]; simpl; intros x rest H; [tauto|].
  destruct H as [H | H].
  - inversion H; subst; auto.
  - apply in_map_iff in H; destruct H as ([y r] & Heq & Hin).
    simpl in Heq; inversion Heq; subst.
    destruct (IH _ _ Hin) as (Hy & Hr & Hl); split; [auto|split].
    + intros z [<- | Hz]; simpl; auto.
    + simpl; lia.
Qed.

Lemma picks_complete {A} (l : list A) x :
  In x l ->
  exists rest, In (x, rest) (picks l) /\ forall y, In y l -> y = x \/ In y rest.
Proof.
  induction l as [|h t IH]; simpl; [tauto|]; intros [-> | Hx].
  - exists t; split; [auto|]. intros y [<- | Hy]; auto.
  - destruct (IH Hx) as (rest & Hin & Hall).
    exists (h :: rest); split.
    + right; apply in_map_iff; exists (x, rest); auto.
    + intros y [<- | Hy]; simpl; auto.
      destruct (Hall y Hy); auto.
Qed.

Lemma trails_sound fuel :
  forall es a b rest,
    In (b, rest) (trails fuel es a) ->
    path es a b /\ forall e, In e rest -> In e es.
Proof.
  induction fuel as [|f IH]; simpl; intros es a b rest H; [tauto|].
  apply in_flat_map in H; destruct H as ([[x y] r] & Hp & H); simpl in H.
  destruct (picks_sound _ _ _ Hp) as (Hin & Hr & _).
  destruct (Nat.eqb_spec x a) as [-> | Hne]; [|contradiction].
  destruct H as [H | H].
  - inversion H; subst; split; [apply path_one|]; auto.
  - destruct (IH _ _ _ _ H) as (Hpath & Hrest); split.
    + eapply path_cons; [eassumption|].
      eapply path_incl; [|eassumption]; auto.
    + auto.
Qed.

Lemma trails_complete fuel :
  forall es a b,
    List.length es <= fuel ->
    path es a b ->
    exists rest, In (b, rest) (trails fuel es a) /\
                 (a <> b -> forall d, In (b, d) es -> In (b, d) rest).
Proof.
  induction fuel as [|f IH]; intros es a b Hlen Hp.
  - destruct es; [|simpl in Hlen; lia]. inversion Hp; contradiction.
  - destruct (path_head _ _ _ Hp) as (c & Hac & Hc).
    destruct (picks_complete _ _ Hac) as (rest0 & Hpick & Hall).
    assert (Hkeep : a <> b -> forall d, In (b, d) es -> In (b, d) rest0).
    { intros Hne d Hd. destruct (Hall _ Hd) as [Heq | ?]; [|assumption].
      inversion Heq; congruence. }
    destruct (Nat.eq_dec c b) as [-> | Hcb].
    + exists rest0; split; [|assumption].
      simpl; apply in_flat_map; exists ((a, b), rest0); split; [assumption|].
      simpl; rewrite Nat.eqb_refl; left; reflexivity.
    + destruct Hc as [? | Hc]; [contradiction|].
      assert (Hc' : path rest0 c b).
      { eapply path_incl; [|eassumption].
        intros e He; apply filter_In in He; destruct He as (He & Hsrc).
        destruct (Hall _ He) as [-> | ?]; [|assumption].
        simpl in Hsrc; rewrite Nat.eqb_refl in Hsrc; discriminate. }
      destruct (picks_sound _ _ _ Hpick) as (_ & _ & Hl).
      assert (Hlen' : List.length rest0 <= f) by (unfold Rel in *; lia).
      destruct (IH rest0 c b Hlen' Hc') as (rest & Hin & Hrest).
      exists rest; split.
      * simpl; apply in_flat_map; exists ((a, c), rest0); split; [assumption|].
        simpl; rewrite Nat.eqb_refl; right; assumption.
      * intros Hne d Hd; apply Hrest; auto.
Qed.

Lemma var_paths_sound es a b rest :
  In (b, rest) (var_paths es a) -> path es a b /\ forall e, In e rest -> In e es.
Proof. apply trails_sound. Qed.

Lemma var_paths_complete es a b :
  path es a b ->
  exists rest, In (b, rest) (var_paths es a) /\
               (a <> b -> forall d, In (b, d) es -> In (b, d) rest).
Proof. apply trails_complete; lia. Qed.

Lemma node_by_id_some i s n : node_by_id i s = Some n -> In n (nodes s) /\ id n = i.
Proof.
  unfold node_by_id; intros H; apply find_some in H.
  rewrite Nat.eqb_eq in H; exact H.
Qed.

Lemma node_by_id_in i s :
  In i (map id (nodes s)) -> exists n, node_by_id i s = Some n.
Proof.
  intros H; apply in_map_iff in H; destruct H as (n & Hid & Hin).
  unfold node_by_id.
  destruct (List.find (fun n0 => id n0 =? i) (nodes s)) eqn:E; [eauto|].
  eapply find_none in E; [|eassumption].
  rewrite Nat.eqb_neq in E; contradiction.
Qed.

Lemma root_query_sound x s r :
  In r (root_query x s) ->
  In r (nodes s) /\ path (rels s) x (id r) /\ In (id r, id r) (rels s).
Proof.
  unfold root_query; intros H.
  apply in_flat_map in H; destruct H as ([e rest] & Hp & H); simpl in H.
  apply in_flat_map in H; destruct H as (loop & Hl & H).
  apply filter_In in Hl; destruct Hl as (Hl & Heq).
  apply rel_eqb_eq in Heq; subst loop.
  destruct (node_by_id e s) as [n|] eqn:E; [|contradiction].
  destruct H as [<- | []].
  apply node_by_id_some in E; destruct E as (Hn & <-).
  destruct (var_paths_sound _ _ _ _ Hp) as (Hpath & Hrest); auto.
Qed.

Lemma root_query_complete x s r :
  path (rels s) x r -> x <> r -> In (r, r) (rels s) -> In r (map id (nodes s)) ->
  exists n, In n (root_query x s).
Proof.
  intros Hp Hne Hloop Hid.
  destruct (var_paths_complete _ _ _ Hp) as (rest & Hin & Hrest).
  destruct (node_by_id_in _ _ Hid) as (n & Hn).
  exists n; unfold root_query; apply in_flat_map; exists (r, rest); split; [assumption|].
  simpl; apply in_flat_map; exists (r, r); split.
  - apply filter_In; split; [auto | apply rel_eqb_refl].
  - rewrite Hn; left; reflexivity.
Qed.

Lemma ancestor_query_spec x s a :
  In a (ancestor_query x s) <-> In a (nodes s) /\ path (rels s) (id a) x.
Proof.
  unfold ancestor_query; rewrite in_flat_map; split.
  - intros (n & Hn & H); apply in_flat_map in H; destruct H as ([e rest] & Hp & H).
    simpl in H; destruct (Nat.eqb_spec e x) as [-> | ?]; [|contradiction].
    destruct H as [<- | []]; split; [assumption|].
    eapply var_paths_sound; eassumption.
  - intros (Hn & Hp); exists a; split; [assumption|].
    destruct (var_paths_complete _ _ _ Hp) as (rest & Hin & _).
    apply in_flat_map; exists (x, rest); split; [assumption|].
    simpl; rewrite Nat.eqb_refl; left; reflexivity.
Qed.

(* ================================================================= *)
(** ** Redirecting parent relationships *)

Lemma redirected_in A q es es' x y :
  redirected A q es es' ->
  (In (x, y) es' <-> if A x then y = q else In (x, y) es).
Proof.
  intros H; rewrite (in_out_edges es'), (H x).
  destruct (A x).
  - simpl; split; [intros [E | []]; inversion E; auto | intros ->; auto].
  - symmetry; apply in_out_edges.
Qed.

Lemma redirected_refl q es : redirected (fun _ => false) q es es.
Proof. intros x; reflexivity. Qed.

Lemma redirected_trans A B q es es1 es2 :
  redirected A q es es1 -> redirected B q es1 es2 ->
  redirected (fun x => A x || B x) q es es2.
Proof.
  intros H1 H2 x; rewrite (H2 x), (H1 x).
  destruct (A x), (B x); reflexivity.
Qed.

Lemma redirected_ext A B q es es' :
  (forall x, A x = B x) -> redirected A q es es' -> redirected B q es es'.
Proof. intros E H x; rewrite <- E; apply H. Qed.

Section Redirect.
Variables (A : nat -> bool) (q : nat) (es es' : list Rel).
Hypothesis Hred : redirected A q es es'.
Hypothesis Hq : In (q, q) es.
(** The selected nodes have their roots among the selected nodes and [q]. *)
Hypothesis Hclosed :
  forall x t, A x = true -> rootof es x t -> t = q \/ A t = true.

Lemma redirect_keeps_q : In (q, q) es'.
Proof.
  apply (redirected_in _ _ _ _ q q Hred); destruct (A q); auto.
Qed.

Lemma redirect_to_q a t :
  path es a t -> (a = q \/ path es' a q) \/ path es' a t.
Proof.
  intros Hp; induction Hp as [a b Hab | a b c Hp IH Hbc].
  - destruct (A a) eqn:Ea.
    + left; right; apply path_one.
      apply (redirected_in _ _ _ _ a q Hred); rewrite Ea; reflexivity.
    + right; apply path_one.
      apply (redirected_in _ _ _ _ a b Hred); rewrite Ea; assumption.
  - destruct IH as [IH | IH]; [auto|].
    destruct (A b) eqn:Eb.
    + left; right; eapply path_snoc; [eassumption|].
      apply (redirected_in _ _ _ _ b q Hred); rewrite Eb; reflexivity.
    + right; eapply path_snoc; [eassumption|].
      apply (redirected_in _ _ _ _ b c Hred); rewrite Eb; assumption.
Qed.

Lemma redirect_untouched a t c :
  In (t, t) es -> A t = false -> t <> q ->
  path es a c -> (c = t \/ path es c t) -> path es' a c.
Proof.
  intros Ht Et Htq Hp; induction Hp as [a b Hab | a b c Hp IH Hbc]; intros Hc.
  - apply path_one, (redirected_in _ _ _ _ a b Hred).
    destruct (A a) eqn:Ea; [|assumption].
    assert (Hr : rootof es a t).
    { split; [assumption|]; right.
      destruct Hc as [-> | Hc]; [apply path_one | eapply path_cons]; eassumption. }
    destruct (Hclosed _ _ Ea Hr); congruence.
  - assert (Hbt : path es b t).
    { destruct Hc as [-> | Hc]; [apply path_one | eapply path_cons]; eassumption. }
    eapply path_snoc; [apply IH; auto|].
    apply (redirected_in _ _ _ _ b c Hred).
    destruct (A b) eqn:Eb; [|assumption].
    assert (Hr : rootof es b t) by (split; auto).
    destruct (Hclosed _ _ Eb Hr); congruence.
Qed.

Lemma redirect_rootof a t :
  rootof es a t -> rootof es' a (if (t =? q) || A t then q else t).
Proof.
  intros [Ht Hat].
  destruct ((t =? q) || A t) eqn:E.
  - split; [apply redirect_keeps_q|].
    assert (Hend : t = q \/ In (t, q) es').
    { apply orb_true_iff in E; destruct E as [E | E].
      - left; apply Nat.eqb_eq; assumption.
      - right; apply (redirected_in _ _ _ _ t q Hred); rewrite E; reflexivity. }
    destruct Hat as [-> | Hat].
    + destruct Hend; [auto | right; apply path_one; assumption].
    + destruct (redirect_to_q _ _ Hat) as [H | H]; [assumption|].
      destruct Hend as [-> | Hend]; [auto|].
      right; eapply path_snoc; eassumption.
  - apply orb_false_iff in E; destruct E as (Etq & Et).
    apply Nat.eqb_neq in Etq.
    split.
    + apply (redirected_in _ _ _ _ t t Hred); rewrite Et; assumption.
    + destruct Hat as [-> | Hat]; [auto | right].
      eapply redirect_untouched; eauto.
Qed.
End Redirect.

(* ================================================================= *)
(** ** Well-formed stores *)

Lemma wf_empty : wf empty_store.
Proof.
  split; simpl; try tauto. constructor.
Qed.

Lemma wf_functional s : wf s -> functional (rels s).
Proof.
  intros W a b c Hb Hc.
  destruct (wf_closed _ W _ _ Hb) as (Ha & _).
  destruct (wf_parent _ W _ Ha) as (p & Hp).
  apply in_out_edges in Hb, Hc; rewrite Hp in Hb, Hc.
  destruct Hb as [Hb | []], Hc as [Hc | []]; congruence.
Qed.

Lemma path_src_node s a b : wf s -> path (rels s) a b -> In a (map id (nodes s)).
Proof.
  intros W Hp; destruct (path_step _ _ _ Hp) as (c & Hac & _).
  exact (proj1 (wf_closed _ W _ _ Hac)).
Qed.

Lemma wf_root_unique s a t r :
  wf s -> rootof (rels s) a t -> rootof (rels s) a r -> t = r.
Proof. intros W; apply rootof_unique, wf_functional, W. Qed.

(** In a well-formed store the only cycles are the self-loops of roots. *)
Lemma wf_acyclic s a : wf s -> path (rels s) a a -> In (a, a) (rels s).
Proof.
  intros W Hp.
  assert (Ha := path_src_node _ _ _ W Hp).
  destruct (wf_rooted _ W _ Ha) as (r & Hr & [-> | Hnr]); [assumption|].
  assert (Hback := cycle_back _ (wf_functional _ W) _ _ Hp Hnr).
  rewrite (path_from_root _ (wf_functional _ W) _ _ Hr Hback).
  assumption.
Qed.

(* ================================================================= *)
(** ** What the store primitives do *)

Lemma find_hd_filter {A} (f : A -> bool) l : List.find f l = hd_error (filter f l).
Proof.
  induction l as [|h t IH]; simpl; [reflexivity|].
  destruct (f h); simpl; auto.
Qed.

Lemma same_rel_eq (x y : nat * Rel) : same_rel x y = true <-> x = y.
Proof.
  destruct x as [i r], y as [j r']; unfold same_rel; simpl.
  rewrite andb_true_iff, Nat.eqb_eq, rel_eqb_eq; split.
  - intros [-> ->]; reflexivity.
  - intros H; inversion H; auto.
Qed.

Lemma out_edges_map (l : list (nat * Rel)) a : out_edges (map snd l) a = map snd (out_rels l a).
Proof.
  induction l as [|[i [x y]] t IH]; [reflexivity|].
  unfold out_edges, out_rels in *; simpl.
  destruct (x =? a); simpl; rewrite IH; reflexivity.
Qed.

Lemma match_one_any start s :
  match_one start None s = hd_error (out_rels (relationships s) start).
Proof.
  unfold match_one, out_rels; rewrite find_hd_filter; f_equal.
  apply filter_ext; intros r; apply andb_true_r.
Qed.

Lemma is_root_true n s : is_root n s = true <-> In (id n, id n) (rels s).
Proof.
  unfold is_root, rels.
  destruct (match_one (id n) (Some (id n)) s) as [r|] eqn:E;
    unfold match_one in E; split; intros H;
    try reflexivity; try discriminate.
  - apply find_some in E; destruct E as (Hin & Hb).
    apply andb_true_iff in Hb; rewrite !Nat.eqb_eq in Hb.
    apply in_map_iff; exists r; split; [|assumption].
    destruct r as [i [a b]]; simpl in *; destruct Hb; subst; reflexivity.
  - apply in_map_iff in H; destruct H as (r & Hr & Hin).
    eapply find_none in E; [|eassumption].
    destruct r as [i [a b]]; simpl in *; inversion Hr; subst.
    rewrite !Nat.eqb_refl in E; discriminate.
Qed.

Lemma out_rels_cons (r : nat * Rel) t x :
  out_rels (r :: t) x = if fst (snd r) =? x then r :: out_rels t x else out_rels t x.
Proof. reflexivity. Qed.

Lemma remove_first_cons (r h : nat * Rel) t :
  remove_first r (h :: t) = if same_rel h r then t else h :: remove_first r t.
Proof. reflexivity. Qed.

Lemma out_rels_remove_other (r : nat * Rel) l x :
  fst (snd r) <> x -> out_rels (remove_first r l) x = out_rels l x.
Proof.
  intros Hne; induction l as [|h t IH]; [reflexivity|].
  rewrite remove_first_cons, out_rels_cons.
  destruct (same_rel h r) eqn:E.
  - apply same_rel_eq in E; subst h.
    destruct (Nat.eqb_spec (fst (snd r)) x); [contradiction | reflexivity].
  - rewrite out_rels_cons, IH; reflexivity.
Qed.

Lemma out_rels_remove_first (r : nat * Rel) l rest :
  out_rels l (fst (snd r)) = r :: rest ->
  out_rels (remove_first r l) (fst (snd r)) = rest.
Proof.
  induction l as [|h t IH]; [discriminate|].
  rewrite remove_first_cons, out_rels_cons.
  destruct (same_rel h r) eqn:E.
  - apply same_rel_eq in E; subst h; rewrite Nat.eqb_refl; congruence.
  - rewrite out_rels_cons.
    destruct (fst (snd h) =? fst (snd r)); [|assumption].
    intros H; inversion H; subst h.
    assert (E' : same_rel r r = true) by (apply same_rel_eq; reflexivity).
    congruence.
Qed.

Lemma out_rels_app l1 l2 x : out_rels (l1 ++ l2) x = out_rels l1 x ++ out_rels l2 x.
Proof. apply filter_app. Qed.

Lemma out_edges_app es1 es2 x :
  out_edges (es1 ++ es2) x = out_edges es1 x ++ out_edges es2 x.
Proof. apply filter_app. Qed.

Lemma out_edges_one a b x :
  out_edges [(a, b)] x = if a =? x then [(a, b)] else [].
Proof. reflexivity. Qed.

Lemma rels_snoc nodes' l i r u n :
  rels (mkStore nodes' (l ++ [(i, r)]) u n) = map snd l ++ [r].
Proof. unfold rels; simpl; rewrite map_app; reflexivity. Qed.

Lemma kept_refl A l : kept A l l.
Proof. intros x _; reflexivity. Qed.

Lemma kept_trans A B l l1 l2 :
  kept A l l1 -> kept B l1 l2 -> kept (fun x => A x || B x) l l2.
Proof.
  intros H1 H2 x Hx; apply orb_false_iff in Hx; destruct Hx as (Ha & Hb).
  rewrite (H2 x Hb); apply H1, Ha.
Qed.

Lemma kept_ext A B l l' : (forall x, A x = B x) -> kept A l l' -> kept B l l'.
Proof. intros E H x Hx; apply H; rewrite E; assumption. Qed.

(** [_set_parent] deletes the one relationship that leaves [node] and
    creates one to [parent]; every other relationship stays. *)
Lemma set_parent_spec node parent s :
  single (rels s) (id node) ->
  exists s', _set_parent node parent s = Ok tt s' /\
             nodes s' = nodes s /\ next_uuid s' = next_uuid s /\
             redirected (fun x => x =? id node) (id parent) (rels s) (rels s') /\
             kept (fun x => x =? id node) (relationships s) (relationships s').
Proof.
  intros (p & Hp); unfold rels in Hp; rewrite out_edges_map in Hp.
  destruct (out_rels (relationships s) (id node)) as [|r [|r' rest]] eqn:Eo;
    simpl in Hp; try discriminate.
  inversion Hp as [Hr]; clear Hp.
  assert (Hsrc : fst (snd r) = id node) by (rewrite Hr; reflexivity).
  unfold _set_parent, bind, separate, create_rel.
  rewrite match_one_any, Eo; simpl.
  rewrite <- Hsrc in Eo |- *.
  eexists; split; [reflexivity|]; simpl; split; [reflexivity|]; split; [reflexivity|].
  assert (Hx : forall x,
             out_rels (remove_first r (relationships s) ++
                       [(next_rel s, (fst (snd r), id parent))]) x =
             if x =? fst (snd r) then [(next_rel s, (x, id parent))]
             else out_rels (relationships s) x).
  { intros x; rewrite out_rels_app.
    destruct (Nat.eqb_spec x (fst (snd r))) as [-> | Hne].
    - rewrite (out_rels_remove_first r _ [] Eo); simpl.
      rewrite Nat.eqb_refl; reflexivity.
    - rewrite out_rels_remove_other by congruence; simpl.
      destruct (Nat.eqb_spec (fst (snd r)) x); [congruence | apply app_nil_r]. }
  split.
  - intros x; unfold rels; simpl; rewrite !out_edges_map, Hx.
    destruct (x =? fst (snd r)); reflexivity.
  - intros x Hxn; rewrite Hx, Hxn; reflexivity.
Qed.

Lemma among_true l x : among l x = true <-> exists a, In a l /\ id a = x.
Proof.
  unfold among; rewrite existsb_exists.
  split; intros (a & Ha & E); exists a; split; auto; apply Nat.eqb_eq; assumption.
Qed.

Lemma single_redirected A q es es' x :
  redirected A q es es' -> single es x -> single es' x.
Proof.
  intros H (p & Hp); unfold single; rewrite (H x).
  destruct (A x); eauto.
Qed.

(** The compression loop: every listed node ends up with one
    relationship, to [root]; the relationships of the other nodes are
    not touched. *)
Lemma compress_spec root l : forall s,
  (forall a, In a l -> single (rels s) (id a)) ->
  exists s', for_each l (fun ancestor => _set_parent ancestor root) s = Ok tt s' /\
             nodes s' = nodes s /\ next_uuid s' = next_uuid s /\
             redirected (among l) (id root) (rels s) (rels s') /\
             kept (among l) (relationships s) (relationships s').
Proof.
  induction l as [|a t IH]; intros s Hs; simpl.
  - exists s; split; [reflexivity|]; split; [reflexivity|]; split; [reflexivity|].
    split; [apply redirected_refl | apply kept_refl].
  - destruct (set_parent_spec a root s (Hs a (or_introl eq_refl)))
      as (s1 & E1 & Hn1 & Hu1 & Hr1 & Hk1).
    destruct (IH s1) as (s2 & E2 & Hn2 & Hu2 & Hr2 & Hk2).
    { intros b Hb; eapply single_redirected; [eassumption|].
      apply Hs; right; assumption. }
    exists s2; unfold bind; rewrite E1, E2.
    split; [reflexivity|]; split; [congruence|]; split; [congruence|]; split.
    + eapply redirected_ext; [|eapply redirected_trans; eassumption].
      intros x; simpl; rewrite (Nat.eqb_sym x); reflexivity.
    + eapply kept_ext; [|eapply kept_trans; eassumption].
      intros x; simpl; rewrite (Nat.eqb_sym x); reflexivity.
Qed.

(* ================================================================= *)
(** ** [find] *)

Lemma select_some ty nm s e :
  select ty nm s = Some e -> In e (nodes s) /\ type e = ty /\ name e = nm.
Proof.
  unfold select; intros H; apply find_some in H.
  rewrite andb_true_iff, !String.eqb_eq in H; tauto.
Qed.

Lemma node_id_in s n : In n (nodes s) -> In (id n) (map id (nodes s)).
Proof. apply in_map. Qed.

(** Redirecting keeps a store well formed when the target is a root and
    the redirected nodes are nodes whose roots are redirected too. *)
Lemma wf_redirect s s' A q :
  wf s ->
  map id (nodes s') = map id (nodes s) -> next_uuid s' = next_uuid s ->
  redirected A q (rels s) (rels s') ->
  In (q, q) (rels s) ->
  (forall x, A x = true -> In x (map id (nodes s))) ->
  (forall x t, A x = true -> rootof (rels s) x t -> t = q \/ A t = true) ->
  wf s'.
Proof.
  intros W Hn Hu Hred Hq HA Hcl; split; rewrite ?Hn, ?Hu; try apply W.
  - intros a b Hab.
    apply (redirected_in _ _ _ _ a b Hred) in Hab.
    destruct (A a) eqn:Ea.
    + subst b; split; [auto|]. exact (proj1 (wf_closed _ W _ _ Hq)).
    + exact (wf_closed _ W _ _ Hab).
  - intros i Hi; eapply single_redirected; [eassumption|].
    apply (wf_parent _ W); assumption.
  - intros i Hi; destruct (wf_rooted _ W _ Hi) as (r & Hr).
    eexists; eapply redirect_rootof; eassumption.
Qed.

Lemma find_existing ty nm s e :
  wf s -> select ty nm s = Some e ->
  exists r s',
    find ty nm s = Ok r s' /\
    In r (nodes s) /\ rootof (rels s) (id e) (id r) /\
    nodes s' = nodes s /\ next_uuid s' = next_uuid s /\
    redirected (fun x => negb (is_root e s) && among (ancestor_query (id r) s) x)
               (id r) (rels s) (rels s').
Proof.
  intros W Hsel.
  destruct (select_some _ _ _ _ Hsel) as (He & _).
  unfold find; rewrite Hsel.
  destruct (is_root e s) eqn:Er.
  - exists e, s; split; [reflexivity|]; split; [assumption|]; split.
    + split; [apply is_root_true; assumption | auto].
    + split; [reflexivity|]; split; [reflexivity|]. apply redirected_refl.
  - assert (Hnot : ~ In (id e, id e) (rels s)).
    { intros H; apply is_root_true in H; congruence. }
    destruct (wf_rooted _ W _ (node_id_in _ _ He)) as (r0 & Hloop & [E | Hp]);
      [rewrite <- E in Hloop; contradiction|].
    assert (Hne : id e <> r0) by (intros E; rewrite <- E in Hloop; contradiction).
    destruct (root_query_complete _ _ _ Hp Hne Hloop
                (proj1 (wf_closed _ W _ _ Hloop))) as (n & Hn).
    destruct (root_query (id e) s) as [|root rest] eqn:Eq; [contradiction|].
    clear n Hn.
    assert (Hroot : In root (root_query (id e) s)) by (rewrite Eq; left; reflexivity).
    apply root_query_sound in Hroot; destruct Hroot as (Hin & Hpath & Hself).
    destruct (compress_spec root (ancestor_query (id root) s) s)
      as (s1 & E1 & Hn1 & Hu1 & Hr1 & _).
    { intros a Ha; apply ancestor_query_spec in Ha.
      apply (wf_parent _ W), node_id_in; tauto. }
    exists root, s1; unfold bind, ret; rewrite E1.
    split; [reflexivity|]; split; [assumption|]; split; [split; auto|].
    split; [assumption|]; split; assumption.
Qed.

Lemma find_existing_closed s e r :
  wf s -> rootof (rels s) (id e) (id r) ->
  forall x t,
    negb (is_root e s) && among (ancestor_query (id r) s) x = true ->
    rootof (rels s) x t -> t = id r.
Proof.
  intros W [Hself _] x t HA Hxt.
  apply andb_true_iff in HA; destruct HA as (_ & HA).
  apply among_true in HA; destruct HA as (a & Ha & <-).
  apply ancestor_query_spec in Ha; destruct Ha as (_ & Hp).
  eapply wf_root_unique; [eassumption | eassumption | split; auto].
Qed.

Lemma find_existing_wf ty nm s e r s' :
  wf s -> select ty nm s = Some e -> find ty nm s = Ok r s' ->
  wf s' /\ forall a t, rootof (rels s) a t -> rootof (rels s') a t.
Proof.
  intros W Hsel Hf.
  destruct (find_existing _ _ _ _ W Hsel) as (r1 & s1 & E & Hin & Hroot & Hn & Hu & Hred).
  rewrite Hf in E; inversion E; subst r1 s1; clear E.
  pose proof (find_existing_closed _ _ _ W Hroot) as Hcl.
  assert (Hcl' : forall x t,
             negb (is_root e s) && among (ancestor_query (id r) s) x = true ->
             rootof (rels s) x t -> t = id r \/
             negb (is_root e s) && among (ancestor_query (id r) s) t = true)
    by (intros x t HA Hx; left; eauto).
  split.
  - eapply wf_redirect; try eassumption; [congruence | apply Hroot |].
    intros x HA; apply andb_true_iff in HA; destruct HA as (_ & HA).
    apply among_true in HA; destruct HA as (a & Ha & <-).
    apply ancestor_query_spec in Ha; apply node_id_in; tauto.
  - intros a t Hat.
    pose proof (redirect_rootof _ _ _ _ Hred (proj1 Hroot) Hcl' _ _ Hat) as H.
    destruct (Nat.eqb_spec t (id r)) as [-> | Hne]; simpl in H; [assumption|].
    destruct (negb (is_root e s) && among (ancestor_query (id r) s) t) eqn:Et;
      [|assumption].
    exfalso; apply Hne, (Hcl t t Et).
    destruct Hat as (Ht & _); split; auto.
Qed.

Lemma find_new ty nm s :
  select ty nm s = None ->
  find ty nm s = Ok (mkNode (next_uuid s) ty nm 1) (with_new_node ty nm s).
Proof. intros H; unfold find; rewrite H; reflexivity. Qed.

Lemma rels_new_node ty nm s :
  rels (with_new_node ty nm s) = rels s ++ [(next_uuid s, next_uuid s)].
Proof. apply rels_snoc. Qed.

Lemma NoDup_snoc {A} (l : list A) x : NoDup l -> ~ In x l -> NoDup (l ++ [x]).
Proof.
  induction 1 as [|h t Hh Ht IH]; simpl; intros Hx.
  - constructor; [tauto | constructor].
  - constructor.
    + rewrite in_app_iff; simpl; intros [? | [? | []]]; [auto | subst; auto].
    + apply IH; auto.
Qed.

Lemma fresh_not_node s : wf s -> ~ In (next_uuid s) (map id (nodes s)).
Proof.
  intros W H; apply (wf_fresh _ W) in H; lia.
Qed.

Lemma fresh_no_edge s : wf s -> out_edges (rels s) (next_uuid s) = [].
Proof.
  intros W; destruct (out_edges (rels s) (next_uuid s)) as [|[a b] l] eqn:E;
    [reflexivity | exfalso].
  assert (H : In (a, b) (out_edges (rels s) (next_uuid s))) by (rewrite E; left; auto).
  apply out_edges_src in H; simpl in H; destruct H as (-> & H).
  apply (fresh_not_node _ W), (wf_closed _ W _ _ H).
Qed.

Lemma find_new_wf ty nm s :
  wf s ->
  wf (with_new_node ty nm s).
Proof.
  intros W; split; rewrite ?rels_new_node; simpl; rewrite ?map_app; simpl.
  - intros i Hi; apply in_app_iff in Hi; destruct Hi as [Hi | [<- | []]].
    + apply (wf_fresh _ W) in Hi; lia.
    + lia.
  - apply NoDup_snoc; [apply W | apply fresh_not_node, W].
  - intros a b Hab; rewrite !in_app_iff; simpl.
    apply in_app_iff in Hab; destruct Hab as [Hab | [E | []]].
    + destruct (wf_closed _ W _ _ Hab); auto.
    + inversion E; auto.
  - intros i Hi; unfold single; rewrite out_edges_app, out_edges_one.
    apply in_app_iff in Hi; destruct Hi as [Hi | [<- | []]].
    + destruct (Nat.eqb_spec (next_uuid s) i) as [E | _].
      * exfalso; apply (fresh_not_node _ W); rewrite E; assumption.
      * rewrite app_nil_r; apply (wf_parent _ W), Hi.
    + rewrite Nat.eqb_refl, (fresh_no_edge _ W); eexists; reflexivity.
  - intros i Hi; apply in_app_iff in Hi; destruct Hi as [Hi | [<- | []]].
    + destruct (wf_rooted _ W _ Hi) as (r & Hr & Hp); exists r; split.
      * apply in_app_iff; auto.
      * destruct Hp as [? | Hp]; [auto | right].
        eapply path_incl; [|eassumption]; intros; apply in_app_iff; auto.
    + exists (next_uuid s); split; [apply in_app_iff; simpl|]; auto.
Qed.

Lemma extends_refl s : extends s s.
Proof. split; [exists []; symmetry; apply app_nil_r | auto]. Qed.

Lemma extends_trans s1 s2 s3 : extends s1 s2 -> extends s2 s3 -> extends s1 s3.
Proof.
  intros [(n1 & E1) H1] [(n2 & E2) H2]; split; [|auto].
  exists (n1 ++ n2); rewrite E2, E1; symmetry; apply app_assoc.
Qed.

Lemma find_app_some {A} (f : A -> bool) l l' x :
  List.find f l = Some x -> List.find f (l ++ l') = Some x.
Proof.
  induction l as [|h t IH]; simpl; [discriminate|].
  destruct (f h); auto.
Qed.

Lemma find_app_none {A} (f : A -> bool) l l' :
  List.find f l = None -> List.find f (l ++ l') = List.find f l'.
Proof.
  induction l as [|h t IH]; simpl; [reflexivity|].
  destruct (f h); [discriminate | auto].
Qed.

Lemma select_extends ty nm s s' e :
  extends s s' -> select ty nm s = Some e -> select ty nm s' = Some e.
Proof.
  intros [(new & E) _] H; unfold select in *; rewrite E.
  apply find_app_some; assumption.
Qed.

(** [find] always returns on a well-formed store: it returns the root of
    the element, which afterwards exists. *)
Lemma find_ok ty nm s :
  wf s ->
  exists r s',
    find ty nm s = Ok r s' /\ wf s' /\ extends s s' /\
    In r (nodes s') /\
    exists e, select ty nm s' = Some e /\ rootof (rels s') (id e) (id r).
Proof.
  intros W; destruct (select ty nm s) as [e|] eqn:Hsel.
  - destruct (find_existing _ _ _ _ W Hsel) as (r & s' & E & Hin & Hroot & Hn & Hu & Hred).
    destruct (find_existing_wf _ _ _ _ _ _ W Hsel E) as (W' & Hkeep).
    exists r, s'; split; [assumption|]; split; [assumption|].
    assert (Hext : extends s s').
    { split; [exists []; rewrite app_nil_r|]; assumption. }
    split; [assumption|]; split; [congruence|].
    exists e; split; [eapply select_extends; eassumption | auto].
  - rewrite (find_new _ _ _ Hsel).
    eexists; eexists; split; [reflexivity|].
    split; [apply find_new_wf, W|]; split; [|split].
    + split; [simpl; eauto | rewrite rels_new_node].
      intros a t (Ht & Hp); split; [apply in_app_iff; auto|].
      destruct Hp as [? | Hp]; [auto | right].
      eapply path_incl; [|eassumption]; intros; apply in_app_iff; auto.
    + simpl; apply in_app_iff; simpl; auto.
    + eexists; split.
      * unfold select in *; simpl; rewrite (find_app_none _ _ _ Hsel); simpl.
        rewrite !String.eqb_refl; reflexivity.
      * rewrite rels_new_node; simpl; split; [apply in_app_iff; simpl|]; auto.
Qed.

(* ================================================================= *)
(** ** [union] *)

Lemma resolves_extends s s' x r : extends s s' -> resolves s x r -> resolves s' x r.
Proof.
  intros Hext (Hin & e & Hsel & Hroot); split.
  - destruct Hext as [(new & E) _]; rewrite E; apply in_app_iff; auto.
  - exists e; split; [eapply select_extends; eassumption | apply Hext, Hroot].
Qed.

Lemma find_all_ok objects : forall s,
  wf s ->
  exists roots s',
    find_all objects s = Ok roots s' /\ wf s' /\ extends s s' /\
    Forall2 (resolves s') objects roots.
Proof.
  induction objects as [|x t IH]; intros s W; simpl.
  - exists [], s; split; [reflexivity|]; split; [assumption|].
    split; [apply extends_refl | constructor].
  - destruct (find_ok (fst x) (snd x) s W) as (r & s1 & E1 & W1 & X1 & Hr & He).
    destruct (IH s1 W1) as (rs & s2 & E2 & W2 & X2 & Hrs).
    exists (r :: rs), s2; unfold bind, ret; rewrite E1, E2.
    split; [reflexivity|]; split; [assumption|]; split.
    + eapply extends_trans; eassumption.
    + constructor; [|assumption].
      eapply resolves_extends; [eassumption | split; assumption].
Qed.

Lemma max_weight_fold t : forall r,
  let h := fold_left (fun best x => if weight best <? weight x then x else best) t r in
  In h (r :: t) /\ weight r <= weight h /\ (forall x, In x t -> weight x <= weight h).
Proof.
  induction t as [|y t IH]; intros r; simpl.
  - split; [auto|]; split; [lia | tauto].
  - destruct (Nat.ltb_spec (weight r) (weight y)) as [Hlt | Hge].
    + destruct (IH y) as (Hin & Hy & Hall); split; [|split].
      * destruct Hin; auto.
      * lia.
      * intros x [<- | Hx]; auto.
    + destruct (IH r) as (Hin & Hr & Hall); split; [|split].
      * destruct Hin; auto.
      * lia.
      * intros x [<- | Hx]; [lia | auto].
Qed.

Lemma max_weight_some roots :
  roots <> [] -> exists h, max_weight roots = Some h /\ In h roots.
Proof.
  destruct roots as [|r t]; [congruence | intros _].
  eexists; split; [reflexivity | apply max_weight_fold].
Qed.

Lemma add_weight_0 n : add_weight n 0 = n.
Proof. destruct n; unfold add_weight; simpl; f_equal; lia. Qed.

Lemma add_weight_add n v w : add_weight (add_weight n v) w = add_weight n (v + w).
Proof. unfold add_weight; simpl; f_equal; lia. Qed.

Lemma replace_replace n1 n2 l :
  id n1 = id n2 ->
  map (replace_node n2) (map (replace_node n1) l) = map (replace_node n2) l.
Proof.
  intros E; rewrite map_map; apply map_ext; intros m; unfold replace_node.
  destruct (Nat.eqb_spec (id m) (id n1)) as [H | H].
  - rewrite E, Nat.eqb_refl. rewrite E in H; apply Nat.eqb_eq in H; rewrite H; reflexivity.
  - reflexivity.
Qed.

Lemma NoDup_map_inj {A B} (f : A -> B) l x y :
  NoDup (map f l) -> In x l -> In y l -> f x = f y -> x = y.
Proof.
  induction l as [|h t IH]; simpl; [tauto|]; intros Hnd Hx Hy E.
  inversion Hnd as [|? ? Hh Ht]; subst.
  destruct Hx as [-> | Hx], Hy as [-> | Hy]; auto.
  - exfalso; apply Hh; rewrite E; apply in_map; assumption.
  - exfalso; apply Hh; rewrite <- E; apply in_map; assumption.
Qed.

Lemma replace_self n l :
  NoDup (map id l) -> In n l -> map (replace_node n) l = l.
Proof.
  intros Hnd Hn; rewrite <- (map_id l) at 2; apply map_ext_in; intros m Hm.
  unfold replace_node; destruct (Nat.eqb_spec (id m) (id n)) as [E | _]; [|reflexivity].
  eapply NoDup_map_inj; eauto.
Qed.

Lemma map_id_replace n l : map id (map (replace_node n) l) = map id l.
Proof.
  rewrite map_map; apply map_ext; intros m; unfold replace_node.
  destruct (Nat.eqb_spec (id m) (id n)); congruence.
Qed.

Lemma in_replace n l : In n l -> In n (map (replace_node n) l).
Proof.
  intros H; apply in_map_iff; exists n; split; [|assumption].
  unfold replace_node; rewrite Nat.eqb_refl; reflexivity.
Qed.

Lemma merge_spec roots : forall heaviest s,
  NoDup (map id (nodes s)) -> In heaviest (nodes s) ->
  (forall r, In r roots -> single (rels s) (id r)) ->
  exists s',
    merge heaviest roots s = Ok tt s' /\
    next_uuid s' = next_uuid s /\
    nodes s' = map (replace_node (add_weight heaviest (moved heaviest roots))) (nodes s) /\
    redirected (fun x => negb (x =? id heaviest) && among roots x)
               (id heaviest) (rels s) (rels s') /\
    kept (fun x => negb (x =? id heaviest) && among roots x)
         (relationships s) (relationships s').
Proof.
  induction roots as [|r t IH]; intros h s Hnd Hh Hs.
  - exists s; split; [reflexivity|]; split; [reflexivity|]; split; [|split].
    + unfold moved; simpl; rewrite add_weight_0, replace_self; auto.
    + eapply redirected_ext; [|apply redirected_refl].
      intros x; simpl; rewrite andb_false_r; reflexivity.
    + apply kept_refl.
  - simpl; destruct (Nat.eqb_spec (id r) (id h)) as [E | Hne]; simpl.
    + destruct (IH h s Hnd Hh) as (s' & Em & Hu & Hn & Hr & Hk).
      { intros; apply Hs; right; assumption. }
      assert (Hsame : forall x,
                 negb (x =? id h) && among t x =
                 negb (x =? id h) && ((id r =? x) || among t x)).
      { intros x; rewrite E.
        destruct (Nat.eqb_spec x (id h)) as [-> | Hx]; simpl; [reflexivity|].
        destruct (Nat.eqb_spec (id h) x); [congruence | reflexivity]. }
      exists s'; split; [assumption|]; split; [assumption|]; split; [|split].
      * rewrite Hn; unfold moved; simpl.
        rewrite E, Nat.eqb_refl; reflexivity.
      * eapply redirected_ext; [|eassumption]; assumption.
      * eapply kept_ext; [|eassumption]; assumption.
    + set (h1 := add_weight h (weight r)).
      set (s1 := mkStore (map (replace_node h1) (nodes s)) (relationships s)
                         (next_uuid s) (next_rel s)).
      destruct (set_parent_spec r h1 s1 (Hs r (or_introl eq_refl)))
        as (s2 & E2 & Hn2 & Hu2 & Hr2 & Hk2).
      destruct (IH h1 s2) as (s' & Em & Hu & Hn & Hr & Hk).
      { rewrite Hn2; simpl; rewrite map_id_replace; assumption. }
      { rewrite Hn2; simpl; apply in_map_iff; exists h; split; [|assumption].
        unfold replace_node; simpl; rewrite Nat.eqb_refl; reflexivity. }
      { intros r' Hr'; eapply single_redirected; [eassumption|].
        apply Hs; right; assumption. }
      assert (Hsame : forall x,
                 (x =? id r) || negb (x =? id h1) && among t x =
                 negb (x =? id h) && ((id r =? x) || among t x)).
      { intros x; simpl.
        destruct (Nat.eqb_spec x (id r)) as [-> | Hx]; simpl.
        - destruct (Nat.eqb_spec (id r) (id h)); [contradiction|].
          rewrite Nat.eqb_refl; reflexivity.
        - destruct (Nat.eqb_spec (id r) x); [congruence | reflexivity]. }
      exists s'; unfold bind, push; fold (replace_node h1); fold s1.
      rewrite E2; split; [assumption|]; split; [rewrite Hu, Hu2; reflexivity|].
      split; [|split].
      * rewrite Hn, Hn2; simpl; rewrite replace_replace by reflexivity.
        f_equal; f_equal; unfold h1; rewrite add_weight_add; f_equal.
        unfold moved; simpl.
        destruct (Nat.eqb_spec (id r) (id h)); [contradiction|]; reflexivity.
      * eapply redirected_ext; [|eapply redirected_trans; eassumption]; assumption.
      * eapply kept_ext; [|eapply kept_trans; eassumption]; assumption.
Qed.

Lemma select_key ty nm : forall l l',
  map key l = map key l' ->
  option_map key (select ty nm (mkStore l [] 0 0)) =
  option_map key (select ty nm (mkStore l' [] 0 0)).
Proof.
  unfold select; simpl.
  induction l as [|m t IH]; intros [|m' t'] E; simpl in *; try discriminate; auto.
  inversion E as [[Hi Ht Hn E']]; rewrite Ht, Hn.
  destruct (String.eqb (type m') ty && String.eqb (name m') nm); simpl.
  - unfold key; congruence.
  - auto.
Qed.

Lemma select_same_key ty nm s s' e :
  map key (nodes s') = map key (nodes s) ->
  select ty nm s = Some e ->
  exists e', select ty nm s' = Some e' /\ id e' = id e.
Proof.
  intros E Hsel; pose proof (select_key ty nm _ _ E) as H.
  unfold select in *; simpl in H; rewrite Hsel in H.
  destruct (List.find _ (nodes s')) as [e'|]; simpl in H; [|discriminate].
  exists e'; split; [reflexivity|]. unfold key in H; congruence.
Qed.

Lemma map_key_replace n n' l :
  NoDup (map id l) -> In n l -> key n' = key n ->
  map key (map (replace_node n') l) = map key l.
Proof.
  intros Hnd Hn Hk; rewrite map_map; apply map_ext_in; intros m Hm.
  assert (Hid : id n' = id n) by (unfold key in Hk; congruence).
  unfold replace_node; destruct (Nat.eqb_spec (id m) (id n')) as [E | _]; [|reflexivity].
  rewrite Hk; f_equal; eapply NoDup_map_inj; eauto; congruence.
Qed.

Lemma merge_wf heaviest roots s s' :
  wf s -> In heaviest (nodes s) -> In (id heaviest, id heaviest) (rels s) ->
  (forall r, In r roots -> In r (nodes s) /\ In (id r, id r) (rels s)) ->
  merge heaviest roots s = Ok tt s' ->
  wf s' /\
  map key (nodes s') = map key (nodes s) /\
  redirected (fun x => negb (x =? id heaviest) && among roots x)
             (id heaviest) (rels s) (rels s') /\
  kept (fun x => negb (x =? id heaviest) && among roots x)
       (relationships s) (relationships s') /\
  (forall a t, rootof (rels s) a t ->
               rootof (rels s') a
                      (if (t =? id heaviest) || among roots t then id heaviest else t)).
Proof.
  intros W Hh Hloop Hroots Hm.
  destruct (merge_spec roots heaviest s (wf_ids _ W) Hh)
    as (s1 & E & Hu & Hn & Hred & Hkept).
  { intros r Hr; apply (wf_parent _ W), node_id_in, (proj1 (Hroots r Hr)). }
  rewrite Hm in E; inversion E; subst s1; clear E.
  assert (Hcl : forall x t,
             negb (x =? id heaviest) && among roots x = true ->
             rootof (rels s) x t ->
             t = id heaviest \/ negb (t =? id heaviest) && among roots t = true).
  { intros x t HA Hx; right.
    assert (Hr := HA); apply andb_true_iff in Hr; destruct Hr as (_ & Hr).
    apply among_true in Hr; destruct Hr as (r & Hr & <-).
    assert (Hself : rootof (rels s) (id r) (id r))
      by (split; [exact (proj2 (Hroots r Hr)) | auto]).
    rewrite (wf_root_unique _ _ _ _ W Hx Hself); assumption. }
  split; [|split; [|split; [|split]]]; [| | assumption | assumption |].
  - eapply wf_redirect; try eassumption.
    + rewrite Hn; apply map_id_replace.
    + intros x HA; apply andb_true_iff in HA; destruct HA as (_ & HA).
      apply among_true in HA; destruct HA as (r & Hr & <-).
      apply node_id_in, (proj1 (Hroots r Hr)).
  - rewrite Hn; apply (map_key_replace heaviest); [apply W | assumption | reflexivity].
  - intros a t Hat.
    pose proof (redirect_rootof _ _ _ _ Hred Hloop Hcl _ _ Hat) as H.
    cbv beta in H.
    destruct (Nat.eqb_spec t (id heaviest)); simpl in *; assumption.
Qed.

Lemma Forall2_in_l {A B} (P : A -> B -> Prop) l l' x :
  Forall2 P l l' -> In x l -> exists y, In y l' /\ P x y.
Proof.
  induction 1 as [|a b l l' Hab _ IH]; simpl; [tauto|].
  intros [<- | Hx]; [eauto|].
  destruct (IH Hx) as (y & Hy & Hp); eauto.
Qed.

Lemma Forall2_in_r {A B} (P : A -> B -> Prop) l l' y :
  Forall2 P l l' -> In y l' -> exists x, In x l /\ P x y.
Proof.
  induction 1 as [|a b l l' Hab _ IH]; simpl; [tauto|].
  intros [<- | Hy]; [eauto|].
  destruct (IH Hy) as (x & Hx & Hp); eauto.
Qed.

Lemma resolves_root s x r :
  resolves s x r -> In r (nodes s) /\ In (id r, id r) (rels s).
Proof. intros (Hin & e & _ & Hloop & _); auto. Qed.

Lemma union_unfold objects s roots s1 heaviest :
  find_all objects s = Ok roots s1 ->
  max_weight roots = Some heaviest ->
  union objects s = merge heaviest roots s1.
Proof. intros E1 E2; unfold union, bind; rewrite E1, E2; reflexivity. Qed.

(** [union] on a non-empty list of pairs returns, and merges the trees
    of the roots that the finds returned into the heaviest one. *)
Lemma union_ok objects s :
  wf s -> objects <> [] ->
  exists roots s1 heaviest s',
    find_all objects s = Ok roots s1 /\ wf s1 /\ extends s s1 /\
    Forall2 (resolves s1) objects roots /\
    max_weight roots = Some heaviest /\ In heaviest roots /\
    union objects s = Ok tt s' /\ merge heaviest roots s1 = Ok tt s' /\
    wf s' /\
    map key (nodes s') = map key (nodes s1) /\
    redirected (fun x => negb (x =? id heaviest) && among roots x)
               (id heaviest) (rels s1) (rels s') /\
    kept (fun x => negb (x =? id heaviest) && among roots x)
         (relationships s1) (relationships s') /\
    (forall a t, rootof (rels s1) a t ->
                 rootof (rels s') a
                        (if (t =? id heaviest) || among roots t then id heaviest else t)).
Proof.
  intros W Hne.
  destruct (find_all_ok objects s W) as (roots & s1 & E1 & W1 & X1 & Hres).
  assert (Hroots : roots <> []).
  { intros ->; inversion Hres; subst; congruence. }
  destruct (max_weight_some roots Hroots) as (h & Emax & Hh).
  assert (Hall : forall r, In r roots -> In r (nodes s1) /\ In (id r, id r) (rels s1)).
  { intros r Hr; destruct (Forall2_in_r _ _ _ _ Hres Hr) as (x & _ & Hx).
    eapply resolves_root; eassumption. }
  destruct (merge_spec roots h s1 (wf_ids _ W1) (proj1 (Hall h Hh))) as (s' & Em & _).
  { intros r Hr; apply (wf_parent _ W1), node_id_in, (proj1 (Hall r Hr)). }
  destruct (merge_wf h roots s1 s' W1 (proj1 (Hall h Hh)) (proj2 (Hall h Hh)) Hall Em)
    as (W' & Hk & Hred & Hkept & Hflow).
  exists roots, s1, h, s'.
  rewrite (union_unfold _ _ _ _ _ E1 Emax).
  repeat (split; [assumption|]); assumption.
Qed.

Lemma union_empty s : union [] s = Raise ValueError s.
Proof. reflexivity. Qed.

Lemma union_wf objects s : wf s -> wf (store_of (union objects s)).
Proof.
  intros W; destruct objects as [|x t].
  - rewrite union_empty; assumption.
  - destruct (union_ok (x :: t) s W) as (? & ? & ? & s' & H); [discriminate|].
    destruct H as (_ & _ & _ & _ & _ & _ & E & _ & W' & _).
    rewrite E; assumption.
Qed.

Lemma find_wf ty nm s : wf s -> wf (store_of (find ty nm s)).
Proof.
  intros W; destruct (find_ok ty nm s W) as (r & s' & E & W' & _).
  rewrite E; assumption.
Qed.

Lemma union_from_stream_wf stream : forall s,
  wf s -> wf (store_of (union_from_stream stream s)).
Proof.
  induction stream as [|row t IH]; intros s W; simpl; [assumption|].
  unfold bind; pose proof (union_wf (matches row) s W) as W1.
  destruct (union (matches row) s) as [[] s1 | e s1]; simpl in W1; auto.
Qed.

(* ================================================================= *)
(** ** Sequences of calls *)

Lemma run_call_wf c s : wf s -> wf (run_call s c).
Proof.
  intros W; destruct c; simpl.
  - apply find_wf, W.
  - apply union_wf, W.
  - apply union_from_stream_wf, W.
  - unfold global_id, bind; pose proof (find_wf ty nm s W) as H.
    destruct (find ty nm s); assumption.
Qed.

Lemma run_calls_wf cs : forall s, wf s -> wf (run_calls cs s).
Proof.
  unfold run_calls; induction cs as [|c t IH]; intros s W; simpl; [assumption|].
  apply IH, run_call_wf, W.
Qed.

(** Every store reached from the empty one is well formed. *)
Lemma reachable_wf cs : wf (run_calls cs empty_store).
Proof. apply run_calls_wf, wf_empty. Qed.

(* ================================================================= *)
(** ** Properties of the specification *)

Lemma resolves_id s x r e h :
  wf s -> resolves s x r -> select (fst x) (snd x) s = Some e ->
  rootof (rels s) (id e) h -> id r = h.
Proof.
  intros W (_ & e' & Hsel & Hroot) He Hh.
  rewrite He in Hsel; inversion Hsel; subst e'.
  eapply wf_root_unique; eassumption.
Qed.

(** After [union], every pair of the input names an element whose root
    is the heaviest root. *)
Lemma union_joins objects s :
  wf s -> objects <> [] ->
  exists s' h,
    union objects s = Ok tt s' /\ wf s' /\
    forall x, In x objects ->
              exists e, select (fst x) (snd x) s' = Some e /\ rootof (rels s') (id e) h.
Proof.
  intros W Hne.
  destruct (union_ok objects s W Hne)
    as (roots & s1 & h & s' & E1 & W1 & X1 & Hres & Emax & Hh & Eu & Em & W' & Hk & Hred & Hkept & Hflow).
  exists s', (id h); split; [assumption|]; split; [assumption|].
  intros x Hx.
  destruct (Forall2_in_l _ _ _ _ Hres Hx) as (r & Hr & _ & e & Hsel & Hroot).
  destruct (select_same_key _ _ _ _ _ Hk Hsel) as (e' & Hsel' & Hid).
  exists e'; split; [assumption|]; rewrite Hid.
  apply Hflow in Hroot.
  assert (Ha : among roots (id r) = true) by (apply among_true; eauto).
  rewrite Ha, orb_true_r in Hroot; assumption.
Qed.

Lemma Forall2_impl_in {A B} (P Q : A -> B -> Prop) l l' :
  Forall2 P l l' ->
  (forall x y, In x l -> In y l' -> P x y -> Q x y) ->
  Forall2 Q l l'.
Proof.
  induction 1 as [|a b l l' Hab _ IH]; intros H; constructor.
  - apply H; simpl; auto.
  - apply IH; intros x y Hx Hy; apply H; simpl; auto.
Qed.

(** C1. For every non-empty sequence of pairs and every well-formed
    store, [union] returns, and afterwards every pair of the sequence
    names an element with one and the same root: [find] on each pair
    returns a node of the store that carries a self-loop, is the root of
    the element the pair names, and has the one [id] common to all the
    pairs.  This holds for a find on any single pair as well as for the
    finds on all the pairs made one after the other. *)
Theorem union_then_find_same_id :
  forall s objects,
    wf s -> objects <> [] ->
    exists s' h,
      union objects s = Ok tt s' /\
      (forall x, In x objects ->
                 exists e,
                   select (fst x) (snd x) s' = Some e /\
                   rootof (rels s') (id e) h /\
                   exists r s'',
                     find (fst x) (snd x) s' = Ok r s'' /\ id r = h /\
                     resolves s'' x r /\ is_root r s'' = true) /\
      (exists rs s'',
          find_all objects s' = Ok rs s'' /\
          Forall2 (fun x r => id r = h /\ resolves s'' x r /\ is_root r s'' = true)
                  objects rs).
Proof.
  intros s objects W Hne.
  destruct (union_joins objects s W Hne) as (s' & h & Eu & W' & Hjoin).
  exists s', h; split; [assumption|]; split.
  - intros x Hx; destruct (Hjoin x Hx) as (e & Hsel & Hroot).
    exists e; split; [assumption|]; split; [assumption|].
    destruct (find_ok (fst x) (snd x) s' W') as (r & s'' & E & W'' & X & Hr & He).
    assert (Hres : resolves s'' x r) by (split; assumption).
    exists r, s''; split; [assumption|]; split; [|split; [assumption|]].
    + eapply (resolves_id s'' x); [assumption | eassumption | |].
      * eapply select_extends; eassumption.
      * apply X; assumption.
    + apply is_root_true; destruct He as (e' & _ & Hloop & _); assumption.
  - destruct (find_all_ok objects s' W') as (rs & s'' & E & W'' & X & Hres).
    exists rs, s''; split; [assumption|].
    eapply Forall2_impl_in; [eassumption|].
    intros x r Hx Hr Hxr; split; [|split; [assumption|]].
    + destruct (Hjoin x Hx) as (e & Hsel & Hroot).
      eapply (resolves_id s'' x); [assumption | eassumption | |].
      * eapply select_extends; eassumption.
      * apply X; assumption.
    + apply is_root_true; exact (proj2 (resolves_root _ _ _ Hxr)).
Qed.

Lemma union_then_find_same_id_witness :
  exists s' h,
    union [("email", "a@x"); ("phone", "555")]%string empty_store = Ok tt s' /\
    (forall x, In x [("email", "a@x"); ("phone", "555")]%string ->
               exists e,
                 select (fst x) (snd x) s' = Some e /\
                 rootof (rels s') (id e) h /\
                 exists r s'',
                   find (fst x) (snd x) s' = Ok r s'' /\ id r = h /\
                   resolves s'' x r /\ is_root r s'' = true) /\
    (exists rs s'',
        find_all [("email", "a@x"); ("phone", "555")]%string s' = Ok rs s'' /\
        Forall2 (fun x r => id r = h /\ resolves s'' x r /\ is_root r s'' = true)
                [("email", "a@x"); ("phone", "555")]%string rs).
Proof.
  apply (union_then_find_same_id empty_store); [exact wf_empty | discriminate].
Defined.

(** C5. In every store reached from the empty store by a sequence of
    [find], [union], [union_from_stream] and [global_id] calls, whether
    they return or raise, every node has exactly one outgoing parent
    relationship. *)
Theorem one_parent_at_all_times :
  forall calls n,
    In n (nodes (run_calls calls empty_store)) ->
    List.length (out_edges (rels (run_calls calls empty_store)) (id n)) = 1.
Proof.
  intros calls n Hn.
  destruct (wf_parent _ (reachable_wf calls) _ (node_id_in _ _ Hn)) as (p & Hp).
  rewrite Hp; reflexivity.
Qed.

Lemma one_parent_at_all_times_witness :
  List.length
    (out_edges
       (rels (run_calls
                [CallUnion [("email", "a@x"); ("phone", "555")];
                 CallUnionFromStream [[("phone", Some "555"); ("email", Some "b@x")]];
                 CallFind "email" "b@x"]%string
                empty_store))
       (id (mkNode 2 "email" "b@x" 1))) = 1.
Proof.
  apply (one_parent_at_all_times
           [CallUnion [("email", "a@x"); ("phone", "555")];
            CallUnionFromStream [[("phone", Some "555"); ("email", Some "b@x")]];
            CallFind "email" "b@x"]%string).
  vm_compute; auto.
Defined.

Lemma nonroot_path s e r :
  is_root e s = false -> rootof (rels s) (id e) (id r) -> path (rels s) (id e) (id r).
Proof.
  intros Hnr (Hloop & [E | Hp]); [|assumption].
  rewrite <- E in Hloop; apply is_root_true in Hloop; congruence.
Qed.

(** What [find] leaves behind for an element that is not a root: the
    nodes that the compression loop visits are the nodes that reach the
    root, and each of them is left with one relationship, to the root. *)
Lemma find_nonroot ty nm s e :
  wf s -> select ty nm s = Some e -> is_root e s = false ->
  exists r s',
    find ty nm s = Ok r s' /\ wf s' /\ nodes s' = nodes s /\
    In r (nodes s) /\ rootof (rels s) (id e) (id r) /\
    redirected (among (ancestor_query (id r) s)) (id r) (rels s) (rels s') /\
    (forall a t, rootof (rels s) a t -> rootof (rels s') a t) /\
    (forall a, path (rels s) a (id r) -> among (ancestor_query (id r) s) a = true).
Proof.
  intros W Hsel Hnr.
  destruct (find_existing _ _ _ _ W Hsel) as (r & s' & E & Hin & Hroot & Hn & Hu & Hred).
  destruct (find_existing_wf _ _ _ _ _ _ W Hsel E) as (W' & Hkeep).
  exists r, s'; repeat (split; [assumption|]); split; [|split; [assumption|]].
  - eapply redirected_ext; [|eassumption].
    intros x; rewrite Hnr; reflexivity.
  - intros a Ha.
    pose proof (path_src_node _ _ _ W Ha) as Hid.
    apply in_map_iff in Hid; destruct Hid as (n & <- & Hn').
    apply among_true; exists n; split; [|reflexivity].
    apply ancestor_query_spec; auto.
Qed.

(** C6. [find] on an existing element that is not a root returns the
    root of that element: a node of the store, other than the element,
    that the element reaches along parent relationships and that
    carries a self-loop, before the call and after it.  When the call
    returns, every node from which that root is reachable, before or
    after the call and the queried element included, has exactly one
    parent relationship, and it points at the root; the nodes are the
    ones of before, and every element keeps its root. *)
Theorem find_flattens_ancestry :
  forall s ty nm e,
    wf s -> select ty nm s = Some e -> is_root e s = false ->
    exists r s',
      find ty nm s = Ok r s' /\
      In r (nodes s) /\ nodes s' = nodes s /\
      id r <> id e /\
      rootof (rels s) (id e) (id r) /\
      rootof (rels s') (id e) (id r) /\
      is_root r s' = true /\
      out_edges (rels s') (id e) = [(id e, id r)] /\
      (forall a, path (rels s) a (id r) \/ path (rels s') a (id r) ->
                 out_edges (rels s') a = [(a, id r)]) /\
      (forall a t, rootof (rels s) a t -> rootof (rels s') a t).
Proof.
  intros s ty nm e W Hsel Hnr.
  destruct (find_nonroot _ _ _ _ W Hsel Hnr)
    as (r & s' & E & W' & Hn & Hin & Hroot & Hred & Hkeep & Hanc).
  assert (Hbefore : forall a, path (rels s) a (id r) -> out_edges (rels s') a = [(a, id r)]).
  { intros a Ha; rewrite (Hred a), (Hanc a Ha); reflexivity. }
  assert (Hroot' : rootof (rels s') (id e) (id r)) by (apply Hkeep; assumption).
  exists r, s'; split; [assumption|]; split; [assumption|]; split; [assumption|].
  split; [|split; [assumption|]; split; [assumption|]; split; [|split; [|split]]].
  - intros E'; destruct Hroot as (Hloop & _); rewrite E' in Hloop.
    apply is_root_true in Hloop; congruence.
  - apply is_root_true, Hroot'.
  - apply Hbefore, nonroot_path; assumption.
  - intros a [Ha | Ha]; [auto|]; apply Hbefore.
    pose proof (path_src_node _ _ _ W' Ha) as Hid; rewrite Hn in Hid.
    destruct (wf_rooted _ W _ Hid) as (t & Ht).
    assert (Hr' : rootof (rels s') a (id r)).
    { split; [apply Hroot' | auto]. }
    rewrite <- (wf_root_unique _ _ _ _ W' (Hkeep _ _ Ht) Hr').
    destruct Ht as (Hloop & [-> | Hp]); [apply path_one|]; assumption.
  - assumption.
Qed.

Lemma find_flattens_ancestry_witness :
  exists r s',
    find "t" "b" chained_store = Ok r s' /\
    In r (nodes chained_store) /\ nodes s' = nodes chained_store /\
    id r <> 1 /\
    rootof (rels chained_store) 1 (id r) /\
    rootof (rels s') 1 (id r) /\
    is_root r s' = true /\
    out_edges (rels s') 1 = [(1, id r)] /\
    (forall a, path (rels chained_store) a (id r) \/ path (rels s') a (id r) ->
               out_edges (rels s') a = [(a, id r)]) /\
    (forall a t, rootof (rels chained_store) a t -> rootof (rels s') a t).
Proof.
  apply (find_flattens_ancestry chained_store "t" "b" (mkNode 1 "t" "b" 1)).
  - apply reachable_wf.
  - vm_compute; reflexivity.
  - vm_compute; reflexivity.
Defined.

Lemma fresh_only_self s a :
  wf s ->
  path (rels s ++ [(next_uuid s, next_uuid s)]) a (next_uuid s) -> a = next_uuid s.
Proof.
  intros W Hp.
  assert (H : forall c, path (rels s ++ [(next_uuid s, next_uuid s)]) a c ->
                        c = next_uuid s -> a = next_uuid s); [|eauto].
  clear Hp; intros c Hp; induction Hp as [a b Hab | a b c Hp IH Hbc]; intros ->.
  - apply in_app_iff in Hab; destruct Hab as [Hab | [E | []]].
    + exfalso; apply (fresh_not_node _ W), (proj2 (wf_closed _ W _ _ Hab)).
    + inversion E; reflexivity.
  - apply IH; apply in_app_iff in Hbc; destruct Hbc as [Hbc | [E | []]].
    + exfalso; apply (fresh_not_node _ W), (proj2 (wf_closed _ W _ _ Hbc)).
    + inversion E; reflexivity.
Qed.

(** C7. For a pair that names no element, [find] creates exactly one
    node, with a fresh [id], the pair's [type] and [name] and weight 1,
    and one relationship, the node's self-loop; it returns that node,
    which is a root and the only member of its set. *)
Theorem find_creates_singleton :
  forall s ty nm,
    wf s -> select ty nm s = None ->
    exists n s',
      find ty nm s = Ok n s' /\
      nodes s' = nodes s ++ [n] /\
      rels s' = rels s ++ [(id n, id n)] /\
      ~ In (id n) (map id (nodes s)) /\
      type n = ty /\ name n = nm /\ weight n = 1 /\
      is_root n s' = true /\
      select ty nm s' = Some n /\
      forall a, rootof (rels s') a (id n) -> a = id n.
Proof.
  intros s ty nm W Hsel.
  rewrite (find_new _ _ _ Hsel).
  eexists; eexists; split; [reflexivity|].
  rewrite rels_new_node; simpl.
  split; [reflexivity|]; split; [reflexivity|].
  split; [apply fresh_not_node, W|].
  repeat (split; [reflexivity|]).
  split; [|split].
  - apply is_root_true; rewrite rels_new_node; simpl; apply in_app_iff; simpl; auto.
  - unfold select in *; simpl; rewrite (find_app_none _ _ _ Hsel); simpl.
    rewrite !String.eqb_refl; reflexivity.
  - intros a (_ & [? | Hp]); [assumption|].
    apply (fresh_only_self _ _ W Hp).
Qed.

Lemma find_creates_singleton_witness :
  exists n s',
    find "email" "b@x"
         (run_calls [CallUnion [("email", "a@x"); ("phone", "555")]%string] empty_store)
    = Ok n s' /\
    nodes s' =
      nodes (run_calls [CallUnion [("email", "a@x"); ("phone", "555")]%string] empty_store)
      ++ [n] /\
    rels s' =
      rels (run_calls [CallUnion [("email", "a@x"); ("phone", "555")]%string] empty_store)
      ++ [(id n, id n)] /\
    ~ In (id n)
         (map id (nodes (run_calls [CallUnion [("email", "a@x"); ("phone", "555")]%string]
                                   empty_store))) /\
    type n = "email"%string /\ name n = "b@x"%string /\ weight n = 1 /\
    is_root n s' = true /\
    select "email" "b@x" s' = Some n /\
    forall a, rootof (rels s') a (id n) -> a = id n.
Proof.
  apply (find_creates_singleton
           (run_calls [CallUnion [("email", "a@x"); ("phone", "555")]%string] empty_store)).
  - apply reachable_wf.
  - reflexivity.
Defined.

(** *** Properties kept by every operation *)

Lemma preserves_ret {A} (P : Store -> Prop) (a : A) : preserves P (ret a).
Proof. intros s H; exact H. Qed.

Lemma preserves_bind {A B} (P : Store -> Prop) (m : M A) (k : A -> M B) :
  preserves P m -> (forall a, preserves P (k a)) -> preserves P (bind m k).
Proof.
  intros Hm Hk s H; unfold bind; specialize (Hm s H).
  destruct (m s) as [a s1 | e s1]; simpl in Hm; [apply Hk|]; assumption.
Qed.

Lemma preserves_for_each {A} (P : Store -> Prop) (body : A -> M unit) l :
  (forall a, preserves P (body a)) -> preserves P (for_each l body).
Proof.
  intros Hb; induction l as [|x t IH]; simpl.
  - apply preserves_ret.
  - apply preserves_bind; auto.
Qed.

Lemma in_remove_first (r x : nat * Rel) l : In x (remove_first r l) -> In x l.
Proof.
  induction l as [|h t IH]; [intros []|].
  rewrite remove_first_cons; destruct (same_rel h r); simpl; tauto.
Qed.

Lemma separate_rel_ids r : preserves rel_ids_ok (separate r).
Proof.
  intros s H; destruct r as [r|]; simpl; [|assumption].
  intros i x Hx; apply (H i x), (in_remove_first r), Hx.
Qed.

Lemma create_rel_rel_ids a b : preserves rel_ids_ok (create_rel a b).
Proof.
  intros s H i x Hx; simpl in *.
  apply in_app_iff in Hx; destruct Hx as [Hx | [Hx | []]].
  - apply H in Hx; lia.
  - inversion Hx; lia.
Qed.

Lemma set_parent_rel_ids node parent : preserves rel_ids_ok (_set_parent node parent).
Proof.
  intros s H; unfold _set_parent; cbv zeta.
  apply (preserves_bind rel_ids_ok); [apply separate_rel_ids | | assumption].
  intros _; apply create_rel_rel_ids.
Qed.

Lemma find_rel_ids ty nm : preserves rel_ids_ok (find ty nm).
Proof.
  intros s H; unfold find.
  destruct (select ty nm s) as [e|].
  - destruct (is_root e s); [assumption|].
    destruct (root_query (id e) s) as [|root rest]; [assumption|].
    cbv zeta; apply (preserves_bind rel_ids_ok); [| | assumption].
    + apply preserves_for_each; intros a; apply set_parent_rel_ids.
    + intros _; apply preserves_ret.
  - apply (preserves_bind rel_ids_ok); [| | assumption].
    + intros s0 H0; exact H0.
    + intros i; cbv zeta; apply preserves_bind; [intros s0 H0; exact H0|].
      intros _; apply preserves_bind; [apply create_rel_rel_ids|].
      intros _; apply preserves_ret.
Qed.

Lemma find_all_rel_ids objects : preserves rel_ids_ok (find_all objects).
Proof.
  induction objects as [|x t IH]; simpl; [apply preserves_ret|].
  apply preserves_bind; [apply find_rel_ids|].
  intros r; apply preserves_bind; [assumption|].
  intros rs; apply preserves_ret.
Qed.

Lemma merge_rel_ids roots : forall heaviest, preserves rel_ids_ok (merge heaviest roots).
Proof.
  induction roots as [|r t IH]; intros h; simpl; [apply preserves_ret|].
  destruct (negb (id r =? id h)); [|apply IH].
  apply preserves_bind; [intros s0 H0; exact H0|].
  intros _; apply preserves_bind; [apply set_parent_rel_ids|].
  intros _; apply IH.
Qed.

Lemma union_rel_ids objects : preserves rel_ids_ok (union objects).
Proof.
  unfold union; apply preserves_bind; [apply find_all_rel_ids|].
  intros roots; destruct (max_weight roots) as [h|].
  - apply merge_rel_ids.
  - intros s H; exact H.
Qed.

Lemma union_from_stream_rel_ids stream : preserves rel_ids_ok (union_from_stream stream).
Proof.
  induction stream as [|row t IH]; simpl; [apply preserves_ret|].
  apply preserves_bind; [apply union_rel_ids | intros _; assumption].
Qed.

(** In every store reached from the empty one the identities of the
    relationships are below the supply. *)
Lemma reachable_rel_ids_ok calls : rel_ids_ok (run_calls calls empty_store).
Proof.
  unfold run_calls.
  assert (H : forall s, rel_ids_ok s -> rel_ids_ok (fold_left run_call calls s)).
  { induction calls as [|c t IH]; intros s Hs; simpl; [assumption|].
    apply IH; destruct c; simpl.
    - apply find_rel_ids, Hs.
    - apply union_rel_ids, Hs.
    - apply union_from_stream_rel_ids, Hs.
    - unfold global_id; apply (preserves_bind rel_ids_ok); [apply find_rel_ids | | assumption].
      intros n; apply preserves_ret. }
  apply H; intros i r [].
Qed.

(** *** The relationship that [_set_parent] creates *)

Lemma set_parent_fresh node parent s :
  single (rels s) (id node) ->
  exists s', _set_parent node parent s = Ok tt s' /\
             next_rel s' = S (next_rel s) /\
             out_rels (relationships s') (id node) =
               [(next_rel s, (id node, id parent))].
Proof.
  intros (p & Hp); unfold rels in Hp; rewrite out_edges_map in Hp.
  destruct (out_rels (relationships s) (id node)) as [|r [|r' rest]] eqn:Eo;
    simpl in Hp; try discriminate.
  inversion Hp as [Hr]; clear Hp.
  assert (Hsrc : fst (snd r) = id node) by (rewrite Hr; reflexivity).
  unfold _set_parent, bind, separate, create_rel.
  rewrite match_one_any, Eo; simpl.
  rewrite <- Hsrc in Eo |- *.
  eexists; split; [reflexivity|]; cbn [next_rel relationships].
  split; [reflexivity|].
  rewrite out_rels_app, (out_rels_remove_first r _ [] Eo).
  unfold out_rels; simpl; rewrite Nat.eqb_refl; reflexivity.
Qed.

(** After the compression loop every listed node has one relationship,
    to [root], and that relationship is one the loop created. *)
Lemma compress_fresh root l : forall s,
  (forall a, In a l -> single (rels s) (id a)) ->
  exists s', for_each l (fun ancestor => _set_parent ancestor root) s = Ok tt s' /\
             next_rel s <= next_rel s' /\
             forall x, among l x = true ->
                       exists k, out_rels (relationships s') x = [(k, (x, id root))] /\
                                 next_rel s <= k.
Proof.
  induction l as [|a t IH]; intros s Hs; simpl.
  - exists s; split; [reflexivity|]; split; [lia | discriminate].
  - destruct (set_parent_spec a root s (Hs a (or_introl eq_refl)))
      as (s1 & E1 & _ & _ & Hr1 & _).
    destruct (set_parent_fresh a root s (Hs a (or_introl eq_refl)))
      as (s1' & E1' & Hnx & Hout).
    rewrite E1 in E1'; inversion E1'; subst s1'; clear E1'.
    assert (Hs1 : forall b, In b t -> single (rels s1) (id b)).
    { intros b Hb; eapply single_redirected; [eassumption|].
      apply Hs; right; assumption. }
    destruct (compress_spec root t s1 Hs1) as (s2 & E2 & _ & _ & _ & Hk2).
    destruct (IH s1 Hs1) as (s2' & E2' & Hle & Hfresh).
    rewrite E2 in E2'; inversion E2'; subst s2'; clear E2'.
    exists s2; unfold bind; rewrite E1, E2.
    split; [reflexivity|]; split; [lia|].
    intros x Hx; destruct (among t x) eqn:Et.
    + destruct (Hfresh x Et) as (k & Hk & Hlek); exists k; split; [assumption | lia].
    + unfold among in Hx; simpl in Hx.
      rewrite orb_false_r in Hx; apply Nat.eqb_eq in Hx; subst x.
      exists (next_rel s); split; [|lia].
      rewrite (Hk2 (id a) Et); assumption.
Qed.

Lemma find_nonroot_loop ty nm s e :
  wf s -> select ty nm s = Some e -> is_root e s = false ->
  exists root,
    find ty nm s =
    (for_each (ancestor_query (id root) s) (fun ancestor => _set_parent ancestor root) ;;;
     ret root) s.
Proof.
  intros W Hsel Hnr.
  destruct (select_some _ _ _ _ Hsel) as (He & _).
  assert (Hnot : ~ In (id e, id e) (rels s)).
  { intros H; apply is_root_true in H; congruence. }
  destruct (wf_rooted _ W _ (node_id_in _ _ He)) as (r0 & Hloop & [E | Hp]);
    [rewrite <- E in Hloop; contradiction|].
  assert (Hne : id e <> r0) by (intros E; rewrite <- E in Hloop; contradiction).
  destruct (root_query_complete _ _ _ Hp Hne Hloop
              (proj1 (wf_closed _ W _ _ Hloop))) as (n & Hn).
  destruct (root_query (id e) s) as [|root rest] eqn:Eq; [contradiction|].
  exists root; unfold find; rewrite Hsel, Hnr, Eq; reflexivity.
Qed.

(** C4, as stated, fails: after [union] of two new pairs, [find] on the
    second pair compresses with the root among the ancestors, because
    the pattern [(a)-[:HAS_PARENT*]->(r)] matches the root's self-loop
    with [a = r]; the self-loop that the root had, relationship 0, is
    deleted, and the root ends with a new one, relationship 3. *)
Lemma compression_reparents_root :
  ~ compression_spares_root
      (run_calls [CallUnion [("email", "a@x"); ("phone", "555")]%string] empty_store)
      "phone" "555".
Proof.
  intros H.
  specialize (H (mkNode 1 "phone" "555" 1) (mkNode 0 "email" "a@x" 2)
                (mkStore [mkNode 0 "email" "a@x" 2; mkNode 1 "phone" "555" 1]
                         [(3, (0, 0)); (5, (1, 0))] 2 6)
                eq_refl eq_refl eq_refl).
  vm_compute in H; discriminate.
Qed.

(** C4, amended. [find] on an existing element that is not a root hands
    the root itself to [_set_parent]: the root is among the ancestors
    the loop goes through, and the call deletes the root's self-loop
    and creates a new one.  The relationship that leaves the root when
    [find] returns is a self-loop with an identity the store had not
    given out before the call, and the self-loop of before is no longer
    in the store.  When the call returns the root has exactly one parent
    relationship, that self-loop, the nodes that carry a self-loop are
    the ones of before, and every cycle is a self-loop. *)
Theorem find_restores_root_self_loop :
  forall s ty nm e,
    wf s -> rel_ids_ok s ->
    select ty nm s = Some e -> is_root e s = false ->
    exists r s' k0 k1,
      find ty nm s = Ok r s' /\
      In r (ancestor_query (id r) s) /\
      out_rels (relationships s) (id r) = [(k0, (id r, id r))] /\
      out_rels (relationships s') (id r) = [(k1, (id r, id r))] /\
      k0 < next_rel s /\ next_rel s <= k1 /\
      ~ In (k0, (id r, id r)) (relationships s') /\
      (forall a, In (a, a) (rels s') <-> In (a, a) (rels s)) /\
      (forall a, path (rels s') a a -> In (a, a) (rels s')).
Proof.
  intros s ty nm e W Hids Hsel Hnr.
  destruct (find_nonroot _ _ _ _ W Hsel Hnr)
    as (r & s' & E & W' & Hn & Hin & Hroot & Hred & Hkeep & Hanc).
  destruct Hroot as (Hloop & Hreach).
  assert (Hrr : path (rels s) (id r) (id r)) by (apply path_one; assumption).
  (* the loop that [find] runs *)
  destruct (find_nonroot_loop _ _ _ _ W Hsel Hnr) as (root & Eloop).
  destruct (compress_fresh root (ancestor_query (id root) s) s)
    as (s'' & Ec & Hle & Hfresh).
  { intros a Ha; apply ancestor_query_spec in Ha.
    apply (wf_parent _ W), node_id_in; tauto. }
  unfold bind, ret in Eloop; rewrite Ec in Eloop.
  rewrite E in Eloop; inversion Eloop; subst root s''; clear Eloop.
  destruct (Hfresh (id r) (Hanc _ Hrr)) as (k1 & Hout1 & Hk1).
  (* the self-loop of before *)
  assert (Hout : out_edges (rels s) (id r) = [(id r, id r)]).
  { destruct (wf_parent _ W _ (node_id_in _ _ Hin)) as (p & Hp).
    assert (H := Hloop); apply in_out_edges in H; rewrite Hp in H.
    destruct H as [H | []]; rewrite Hp, H; reflexivity. }
  unfold rels in Hout; rewrite out_edges_map in Hout.
  destruct (out_rels (relationships s) (id r)) as [|[k0 x] [|x' rest]] eqn:Eo;
    simpl in Hout; try discriminate.
  inversion Hout; subst x; clear Hout.
  assert (Hk0 : k0 < next_rel s).
  { apply (Hids k0 (id r, id r)).
    assert (H : In (k0, (id r, id r)) (out_rels (relationships s) (id r)))
      by (rewrite Eo; left; reflexivity).
    apply filter_In in H; tauto. }
  exists r, s', k0, k1.
  split; [assumption|]; split; [apply ancestor_query_spec; auto|].
  split; [exact Eo|]; split; [assumption|]; split; [assumption|].
  split; [assumption|]; split; [|split].
  - intros H.
    assert (H' : In (k0, (id r, id r)) (out_rels (relationships s') (id r))).
    { apply filter_In; split; [assumption | apply Nat.eqb_refl]. }
    rewrite Hout1 in H'; destruct H' as [H' | []]; inversion H'; lia.
  - intros a; rewrite (redirected_in _ _ _ _ a a Hred).
    destruct (among (ancestor_query (id r) s) a) eqn:Ea; [|tauto].
    apply among_true in Ea; destruct Ea as (n & Hn' & <-).
    apply ancestor_query_spec in Hn'; destruct Hn' as (_ & Hp).
    split; [intros ->; assumption|].
    intros Hself; symmetry.
    exact (path_from_root _ (wf_functional _ W) _ _ Hself Hp).
  - intros a; apply wf_acyclic; assumption.
Qed.

Lemma find_restores_root_self_loop_witness :
  exists r s' k0 k1,
    find "t" "b" chained_store = Ok r s' /\
    In r (ancestor_query (id r) chained_store) /\
    out_rels (relationships chained_store) (id r) = [(k0, (id r, id r))] /\
    out_rels (relationships s') (id r) = [(k1, (id r, id r))] /\
    k0 < next_rel chained_store /\ next_rel chained_store <= k1 /\
    ~ In (k0, (id r, id r)) (relationships s') /\
    (forall a, In (a, a) (rels s') <-> In (a, a) (rels chained_store)) /\
    (forall a, path (rels s') a a -> In (a, a) (rels s')).
Proof.
  apply (find_restores_root_self_loop chained_store "t" "b" (mkNode 1 "t" "b" 1)).
  - apply reachable_wf.
  - apply reachable_rel_ids_ok.
  - vm_compute; reflexivity.
  - vm_compute; reflexivity.
Defined.

Lemma max_weight_first_fold t : forall r pre mid,
  (forall x, In x pre -> weight x < weight r) ->
  (forall x, In x mid -> weight x <= weight r) ->
  let h := fold_left (fun best x => if weight best <? weight x then x else best) t r in
  exists before after,
    pre ++ r :: mid ++ t = before ++ h :: after /\
    (forall x, In x before -> weight x < weight h) /\
    (forall x, In x after -> weight x <= weight h).
Proof.
  induction t as [|y t IH]; intros r pre mid Hpre Hmid; simpl.
  - exists pre, mid; rewrite app_nil_r; auto.
  - destruct (Nat.ltb_spec (weight r) (weight y)) as [Hlt | Hge].
    + destruct (IH y (pre ++ r :: mid) []) as (before & after & E & Hb & Ha).
      * intros x Hx; apply in_app_iff in Hx; destruct Hx as [Hx | [<- | Hx]].
        -- apply Hpre in Hx; lia.
        -- assumption.
        -- apply Hmid in Hx; lia.
      * intros x [].
      * exists before, after; split; [|auto].
        rewrite <- E; simpl; rewrite <- app_assoc; reflexivity.
    + destruct (IH r pre (mid ++ [y])) as (before & after & E & Hb & Ha).
      * assumption.
      * intros x Hx; apply in_app_iff in Hx; destruct Hx as [Hx | [<- | []]]; auto.
      * exists before, after; split; [|auto].
        rewrite <- E, <- app_assoc; reflexivity.
Qed.

Lemma max_weight_first roots h :
  max_weight roots = Some h ->
  exists before after,
    roots = before ++ h :: after /\
    (forall x, In x before -> weight x < weight h) /\
    (forall x, In x after -> weight x <= weight h).
Proof.
  destruct roots as [|r t]; simpl; [discriminate|]; intros E; inversion E; subst h.
  apply (max_weight_first_fold t r [] []); intros x [].
Qed.

(** C8. For a non-empty sequence of pairs, [union] takes the roots that
    [find] returns for the pairs, in order, and merges into the first of
    them whose weight is maximal: every root before it is strictly
    lighter, every root after it is no heavier, and every root with
    another [id] ends up with one parent relationship, to it. *)
Theorem union_merges_into_first_heaviest :
  forall s objects,
    wf s -> objects <> [] ->
    exists roots s1 heaviest s',
      find_all objects s = Ok roots s1 /\
      Forall2 (resolves s1) objects roots /\
      max_weight roots = Some heaviest /\
      (exists before after,
          roots = before ++ heaviest :: after /\
          (forall r, In r before -> weight r < weight heaviest) /\
          (forall r, In r after -> weight r <= weight heaviest)) /\
      union objects s = Ok tt s' /\
      (forall r, In r roots -> id r <> id heaviest ->
                 out_edges (rels s') (id r) = [(id r, id heaviest)]).
Proof.
  intros s objects W Hne.
  destruct (union_ok objects s W Hne)
    as (roots & s1 & h & s' & E1 & W1 & X1 & Hres & Emax & Hh & Eu & Em & W' & Hk & Hred & Hkept & Hflow).
  exists roots, s1, h, s'; repeat (split; [assumption|]).
  split; [apply max_weight_first; assumption|]; split; [assumption|].
  intros r Hr Hne'; rewrite (Hred (id r)).
  assert (Ha : among roots (id r) = true) by (apply among_true; eauto).
  rewrite Ha; apply Nat.eqb_neq in Hne'; rewrite Hne'; reflexivity.
Qed.

Lemma union_merges_into_first_heaviest_witness :
  exists roots s1 heaviest s',
    find_all [("email", "a@x"); ("phone", "555")]%string empty_store = Ok roots s1 /\
    Forall2 (resolves s1) [("email", "a@x"); ("phone", "555")]%string roots /\
    max_weight roots = Some heaviest /\
    (exists before after,
        roots = before ++ heaviest :: after /\
        (forall r, In r before -> weight r < weight heaviest) /\
        (forall r, In r after -> weight r <= weight heaviest)) /\
    union [("email", "a@x"); ("phone", "555")]%string empty_store = Ok tt s' /\
    (forall r, In r roots -> id r <> id heaviest ->
               out_edges (rels s') (id r) = [(id r, id heaviest)]).
Proof.
  apply (union_merges_into_first_heaviest empty_store); [exact wf_empty | discriminate].
Defined.

(** C10, as stated, fails: in a store where "phone 555" hangs under the
    root "email a@x", [union] of "phone 555" and a new pair starts with
    [find] on "phone 555", whose compression deletes the self-loop of
    the root, relationship 0, and creates a new one, relationship 3.
    That root is the heaviest of the call. *)
Lemma union_rewrites_heaviest_self_loop :
  ~ union_spares_heaviest
      (run_calls [CallUnion [("email", "a@x"); ("phone", "555")]%string] empty_store)
      [("phone", "555"); ("email", "b@x")]%string.
Proof.
  intros H.
  specialize (H [mkNode 0 "email" "a@x" 2; mkNode 2 "email" "b@x" 1]
                (mkStore [mkNode 0 "email" "a@x" 2; mkNode 1 "phone" "555" 1;
                          mkNode 2 "email" "b@x" 1]
                         [(3, (0, 0)); (5, (1, 0)); (6, (2, 2))] 3 7)
                (mkNode 0 "email" "a@x" 2)
                (mkStore [mkNode 0 "email" "a@x" 3; mkNode 1 "phone" "555" 1;
                          mkNode 2 "email" "b@x" 1]
                         [(3, (0, 0)); (5, (1, 0)); (7, (2, 0))] 3 8)
                eq_refl eq_refl).
  vm_compute in H; specialize (H (or_introl eq_refl) eq_refl); discriminate.
Qed.

(** C10, amended. The loop of [union] never rewrites the parent
    relationship of the heaviest root: that relationship, a self-loop,
    is when [union] returns the very relationship it was when the finds
    of the call had returned, the heaviest root is still a root, and the
    only nodes whose parent relationship the loop changes are the other
    roots of the input.  (The finds of the call may have deleted and
    created the self-loop anew before the loop.) *)
Theorem union_loop_keeps_heaviest_root :
  forall s objects,
    wf s -> objects <> [] ->
    exists roots s1 heaviest s',
      find_all objects s = Ok roots s1 /\
      max_weight roots = Some heaviest /\
      merge heaviest roots s1 = Ok tt s' /\
      union objects s = Ok tt s' /\
      out_edges (rels s1) (id heaviest) = [(id heaviest, id heaviest)] /\
      out_rels (relationships s') (id heaviest) =
        out_rels (relationships s1) (id heaviest) /\
      is_root heaviest s' = true /\
      forall x, out_rels (relationships s') x <> out_rels (relationships s1) x ->
                x <> id heaviest /\ among roots x = true.
Proof.
  intros s objects W Hne.
  destruct (union_ok objects s W Hne)
    as (roots & s1 & h & s' & E1 & W1 & X1 & Hres & Emax & Hh & Eu & Em & W' & Hk & Hred & Hkept & Hflow).
  destruct (Forall2_in_r _ _ _ _ Hres Hh) as (x & _ & Hx).
  destruct (resolves_root _ _ _ Hx) as (Hin & Hloop).
  assert (Hout : out_edges (rels s1) (id h) = [(id h, id h)]).
  { destruct (wf_parent _ W1 _ (node_id_in _ _ Hin)) as (p & Hp).
    assert (H := Hloop); apply in_out_edges in H; rewrite Hp in H.
    destruct H as [H | []]; rewrite Hp, H; reflexivity. }
  assert (Hout' : out_edges (rels s') (id h) = [(id h, id h)]).
  { rewrite (Hred (id h)), Nat.eqb_refl; assumption. }
  exists roots, s1, h, s'; repeat (split; [assumption|]).
  split; [|split].
  - apply Hkept; rewrite Nat.eqb_refl; reflexivity.
  - apply is_root_true, in_out_edges; rewrite Hout'; left; reflexivity.
  - intros y Hy.
    destruct (negb (y =? id h) && among roots y) eqn:Ey.
    + apply andb_true_iff in Ey; destruct Ey as (Ey & Ha).
      apply negb_true_iff, Nat.eqb_neq in Ey; auto.
    + exfalso; apply Hy, Hkept, Ey.
Qed.

Lemma union_loop_keeps_heaviest_root_witness :
  exists roots s1 heaviest s',
    find_all [("email", "a@x"); ("phone", "555")]%string empty_store = Ok roots s1 /\
    max_weight roots = Some heaviest /\
    merge heaviest roots s1 = Ok tt s' /\
    union [("email", "a@x"); ("phone", "555")]%string empty_store = Ok tt s' /\
    out_edges (rels s1) (id heaviest) = [(id heaviest, id heaviest)] /\
    out_rels (relationships s') (id heaviest) =
      out_rels (relationships s1) (id heaviest) /\
    is_root heaviest s' = true /\
    forall x, out_rels (relationships s') x <> out_rels (relationships s1) x ->
              x <> id heaviest /\ among roots x = true.
Proof.
  apply (union_loop_keeps_heaviest_root empty_store); [exact wf_empty | discriminate].
Defined.

Lemma merge_same heaviest roots s :
  (forall r, In r roots -> id r = id heaviest) -> merge heaviest roots s = Ok tt s.
Proof.
  induction roots as [|r t IH]; intros H; simpl; [reflexivity|].
  rewrite (H r (or_introl eq_refl)), Nat.eqb_refl; simpl.
  apply IH; intros; apply H; right; assumption.
Qed.

Lemma select_same_nodes ty nm s s' :
  nodes s' = nodes s -> select ty nm s' = select ty nm s.
Proof. unfold select; intros ->; reflexivity. Qed.

(** Finds on existing elements create nothing. *)
Lemma find_all_existing objects : forall s,
  wf s ->
  (forall x, In x objects -> select (fst x) (snd x) s <> None) ->
  exists roots s1,
    find_all objects s = Ok roots s1 /\ wf s1 /\ extends s s1 /\
    nodes s1 = nodes s /\ next_uuid s1 = next_uuid s /\
    Forall2 (resolves s1) objects roots.
Proof.
  induction objects as [|x t IH]; intros s W Hex; simpl.
  - exists [], s; split; [reflexivity|]; split; [assumption|].
    split; [apply extends_refl|]; repeat split; constructor.
  - destruct (select (fst x) (snd x) s) as [e|] eqn:Hsel;
      [|exfalso; apply (Hex x (or_introl eq_refl)); assumption].
    destruct (find_existing _ _ _ _ W Hsel) as (r & s1 & E1 & _ & _ & Hn1 & Hu1 & _).
    destruct (find_ok (fst x) (snd x) s W) as (r' & s1' & E1' & W1 & X1 & Hr & He).
    rewrite E1 in E1'; inversion E1'; subst r' s1'; clear E1'.
    destruct (IH s1 W1) as (rs & s2 & E2 & W2 & X2 & Hn2 & Hu2 & Hres).
    { intros y Hy; rewrite (select_same_nodes _ _ _ _ Hn1); apply Hex; right; assumption. }
    exists (r :: rs), s2; unfold bind, ret; rewrite E1, E2.
    split; [reflexivity|]; split; [assumption|]; split.
    + eapply extends_trans; eassumption.
    + split; [congruence|]; split; [congruence|].
      constructor; [|assumption].
      eapply resolves_extends; [eassumption | split; assumption].
Qed.

Lemma global_id_same s s' :
  wf s -> wf s' -> extends s s' ->
  nodes s' = nodes s -> next_uuid s' = next_uuid s ->
  forall ty nm i s1,
    global_id ty nm s = Ok i s1 -> exists s2, global_id ty nm s' = Ok i s2.
Proof.
  intros W W' X Hn Hu ty nm i s1; unfold global_id, bind, ret.
  destruct (select ty nm s) as [e|] eqn:Hsel.
  - destruct (find_existing _ _ _ _ W Hsel) as (r & sa & Ea & _ & Hra & _).
    assert (Hsel' : select ty nm s' = Some e)
      by (rewrite (select_same_nodes _ _ _ _ Hn); assumption).
    destruct (find_existing _ _ _ _ W' Hsel') as (r' & sb & Eb & _ & Hrb & _).
    rewrite Ea, Eb; intros H; inversion H; subst.
    exists sb; f_equal.
    eapply wf_root_unique; [exact W' | eassumption | apply X; assumption].
  - assert (Hsel' : select ty nm s' = None)
      by (rewrite (select_same_nodes _ _ _ _ Hn); assumption).
    rewrite (find_new _ _ _ Hsel), (find_new _ _ _ Hsel'); simpl.
    intros H; inversion H; subst; rewrite Hu; eauto.
Qed.

(** C9. When the pairs of the input all name existing elements with one
    and the same root, [union] changes no node: every weight, the
    root's included, is what it was, and [global_id] returns for every
    pair what it returned before.  A non-empty input makes [union]
    return; on the empty input it raises and leaves the store as it
    was. *)
Theorem union_same_class_idempotent :
  forall s objects t,
    wf s ->
    (forall x, In x objects ->
               exists e, select (fst x) (snd x) s = Some e /\ rootof (rels s) (id e) t) ->
    (objects <> [] -> union objects s = Ok tt (store_of (union objects s))) /\
    nodes (store_of (union objects s)) = nodes s /\
    node_by_id t (store_of (union objects s)) = node_by_id t s /\
    forall ty nm i s1,
      global_id ty nm s = Ok i s1 ->
      exists s2, global_id ty nm (store_of (union objects s)) = Ok i s2.
Proof.
  intros s objects t W Hcls.
  destruct objects as [|x0 objs].
  - rewrite union_empty; simpl; split; [congruence|]; repeat split; eauto.
  - set (objects := x0 :: objs) in *.
    destruct (find_all_existing objects s W) as (roots & s1 & E1 & W1 & X1 & Hn & Hu & Hres).
    { intros x Hx; destruct (Hcls x Hx) as (e & -> & _); discriminate. }
    assert (Hids : forall r, In r roots -> id r = t).
    { intros r Hr; destruct (Forall2_in_r _ _ _ _ Hres Hr) as (x & Hx & Hxr).
      destruct (Hcls x Hx) as (e & Hsel & Hroot).
      eapply (resolves_id s1 x); [assumption | eassumption | |].
      - eapply select_extends; eassumption.
      - apply X1; assumption. }
    assert (Hroots : roots <> []).
    { intros ->; inversion Hres. }
    destruct (max_weight_some roots Hroots) as (h & Emax & Hh).
    assert (Eu : union objects s = Ok tt s1).
    { rewrite (union_unfold _ _ _ _ _ E1 Emax); apply merge_same.
      intros r Hr; rewrite (Hids r Hr), (Hids h Hh); reflexivity. }
    rewrite Eu; simpl; split; [reflexivity|]; split; [assumption|]; split.
    + unfold node_by_id; rewrite Hn; reflexivity.
    + apply global_id_same; assumption.
Qed.

Lemma union_same_class_idempotent_witness :
  (([("phone", "555"); ("email", "a@x"); ("phone", "555")]%string <> [] ->
    union [("phone", "555"); ("email", "a@x"); ("phone", "555")]%string
          (run_calls [CallUnion [("email", "a@x"); ("phone", "555")]%string] empty_store)
    = Ok tt (store_of
               (union [("phone", "555"); ("email", "a@x"); ("phone", "555")]%string
                  (run_calls [CallUnion [("email", "a@x"); ("phone", "555")]%string]
                             empty_store)))) /\
   nodes (store_of
            (union [("phone", "555"); ("email", "a@x"); ("phone", "555")]%string
               (run_calls [CallUnion [("email", "a@x"); ("phone", "555")]%string]
                          empty_store)))
   = nodes (run_calls [CallUnion [("email", "a@x"); ("phone", "555")]%string] empty_store) /\
   node_by_id 0
     (store_of
        (union [("phone", "555"); ("email", "a@x"); ("phone", "555")]%string
           (run_calls [CallUnion [("email", "a@x"); ("phone", "555")]%string]
                      empty_store)))
   = node_by_id 0
       (run_calls [CallUnion [("email", "a@x"); ("phone", "555")]%string] empty_store) /\
   forall ty nm i s1,
     global_id ty nm
       (run_calls [CallUnion [("email", "a@x"); ("phone", "555")]%string] empty_store)
     = Ok i s1 ->
     exists s2,
       global_id ty nm
         (store_of
            (union [("phone", "555"); ("email", "a@x"); ("phone", "555")]%string
               (run_calls [CallUnion [("email", "a@x"); ("phone", "555")]%string]
                          empty_store)))
       = Ok i s2).
Proof.
  apply (union_same_class_idempotent
           (run_calls [CallUnion [("email", "a@x"); ("phone", "555")]%string] empty_store)
           [("phone", "555"); ("email", "a@x"); ("phone", "555")]%string 0).
  - apply reachable_wf.
  - intros x [<- | [<- | [<- | []]]]; simpl.
    + exists (mkNode 1 "phone" "555" 1); split; [reflexivity|].
      split; [simpl; auto | right; apply path_one; simpl; auto].
    + exists (mkNode 0 "email" "a@x" 2); split; [reflexivity|].
      split; [simpl; auto | left; reflexivity].
    + exists (mkNode 1 "phone" "555" 1); split; [reflexivity|].
      split; [simpl; auto | right; apply path_one; simpl; auto].
Defined.

(* ================================================================= *)
(** ** The scenarios of the specification *)

(** Two unions that share "phone 555": one class, of weight 3. *)
Example scenario_two_unions :
  let s := run_calls [CallUnion [("email", "a@x"); ("phone", "555")];
                      CallUnion [("phone", "555"); ("email", "b@x")]]%string
                     empty_store in
  exists i s1 s2 s3,
    global_id "email" "a@x" s = Ok i s1 /\
    global_id "email" "b@x" s1 = Ok i s2 /\
    global_id "phone" "555" s2 = Ok i s3 /\
    option_map weight (node_by_id i s3) = Some 3 /\
    class_size i s3 = 3.
Proof.
  vm_compute; do 4 eexists; repeat split; reflexivity.
Qed.

(** A stream whose first row has an empty phone, which is ignored. *)
Example scenario_stream :
  let s := run_calls
             [CallUnionFromStream
                [[("email", Some "a@x"); ("phone", Some "")];
                 [("email", Some "a@x"); ("phone", Some "555")]]]%string
             empty_store in
  exists i s1 s2,
    global_id "email" "a@x" s = Ok i s1 /\
    global_id "phone" "555" s1 = Ok i s2 /\
    option_map weight (node_by_id i s2) = Some 2 /\
    class_size i s2 = 2.
Proof.
  vm_compute; do 3 eexists; repeat split; reflexivity.
Qed.

(* ================================================================= *)
(** ** Where the code departs from the specification *)

(** C2. A stream of three rows: the first makes the class of
    "email a@x" and "phone 555", the second a class of three around
    "email b@x", and the third names both members of the first class
    and one of the second.  In the third [union] the root of the first
    class is in [roots] twice and is not the heaviest, and the loop adds
    its weight to the heaviest root once for each occurrence: the
    remaining root ends with weight 7 over a set of 5 elements. *)
Theorem union_counts_repeated_root_twice :
  exists s' root,
    union_from_stream
      [[("email", Some "a@x"); ("phone", Some "555")];
       [("email", Some "b@x"); ("phone", Some "777"); ("device", Some "d1")];
       [("email", Some "a@x"); ("phone", Some "555"); ("device", Some "d1")]]%string
      empty_store = Ok tt s' /\
    select "email" "b@x" s' = Some root /\
    is_root root s' = true /\
    List.length (nodes s') = 5 /\
    class_size (id root) s' = 5 /\
    weight root = 7.
Proof.
  exists (mkStore [mkNode 0 "email" "a@x" 2; mkNode 1 "phone" "555" 1;
                   mkNode 2 "email" "b@x" 7; mkNode 3 "phone" "777" 1;
                   mkNode 4 "device" "d1" 1]
                  [(10, (1, 0)); (11, (2, 2)); (13, (3, 2)); (15, (4, 2)); (17, (0, 2))]
                  5 18).
  exists (mkNode 2 "email" "b@x" 7).
  repeat split; vm_compute; reflexivity.
Qed.

(** The same defect on the smallest input, a pair given twice. *)
Example union_repeated_pair_counts_twice :
  exists s' root,
    union [("t", "a"); ("t", "b"); ("t", "b")]%string empty_store = Ok tt s' /\
    select "t" "a" s' = Some root /\
    is_root root s' = true /\
    class_size (id root) s' = 2 /\
    weight root = 3.
Proof.
  exists (mkStore [mkNode 0 "t" "a" 3; mkNode 1 "t" "b" 1]
                  [(0, (0, 0)); (3, (1, 0))] 2 4).
  exists (mkNode 0 "t" "a" 3).
  repeat split; vm_compute; reflexivity.
Qed.

(** C3. A row whose values are all missing or empty leaves no pair, and
    [union] of no pair raises [ValueError] from [max]; the exception
    leaves the store as it was and ends [union_from_stream], so the rows
    after it are not read. *)
Theorem union_from_stream_empty_row_raises :
  forall row stream s,
    forallb (fun kv => negb (truthy (snd kv))) row = true ->
    union_from_stream (row :: stream) s = Raise ValueError s.
Proof.
  intros row stream s H.
  assert (E : matches row = []).
  { unfold matches; induction row as [|[k v] t IH]; simpl in *; [reflexivity|].
    apply andb_true_iff in H; destruct H as (Hv & Ht).
    rewrite (IH Ht); destruct v as [v|]; [|reflexivity].
    simpl in Hv; apply negb_true_iff in Hv; rewrite Hv; reflexivity. }
  simpl; unfold bind; rewrite E, union_empty; reflexivity.
Qed.

Lemma union_from_stream_empty_row_raises_witness :
  union_from_stream
    [[("email", Some ""); ("phone", None)];
     [("email", Some "a@x"); ("phone", Some "555")]]%string
    empty_store
  = Raise ValueError empty_store.
Proof.
  apply (union_from_stream_empty_row_raises
           [("email", Some ""); ("phone", None)]%string
           [[("email", Some "a@x"); ("phone", Some "555")]]%string
           empty_store).
  reflexivity.
Defined.

(* ================================================================= *)
(** ** Further properties of the code *)

(** [find] returns on every well-formed store, and what it returns is a
    node of the store that is a root: neither the [IndexError] of the
    root query nor the [TypeError] of [separate] can occur. *)
Theorem find_returns_root :
  forall s ty nm,
    wf s ->
    exists r s',
      find ty nm s = Ok r s' /\ wf s' /\
      In r (nodes s') /\ is_root r s' = true /\
      exists e, select ty nm s' = Some e /\ rootof (rels s') (id e) (id r).
Proof.
  intros s ty nm W.
  destruct (find_ok ty nm s W) as (r & s' & E & W' & _ & Hr & e & Hsel & Hroot).
  exists r, s'; repeat (split; [assumption|]); split; [|eauto].
  apply is_root_true, Hroot.
Qed.

Lemma find_returns_root_witness :
  exists r s',
    find "phone" "555"
         (run_calls [CallUnion [("email", "a@x"); ("phone", "555")]%string] empty_store)
    = Ok r s' /\ wf s' /\
    In r (nodes s') /\ is_root r s' = true /\
    exists e, select "phone" "555" s' = Some e /\ rootof (rels s') (id e) (id r).
Proof.
  apply (find_returns_root
           (run_calls [CallUnion [("email", "a@x"); ("phone", "555")]%string] empty_store)).
  apply reachable_wf.
Defined.

(** On a store where the parent chain of an existing element reaches no
    self-loop (a cycle, say), [find] raises [IndexError] from the [[0]]
    of the root query and leaves the store as it is. *)
Theorem find_without_root_raises :
  forall s ty nm e,
    select ty nm s = Some e -> is_root e s = false ->
    (forall r, path (rels s) (id e) r -> ~ In (r, r) (rels s)) ->
    find ty nm s = Raise IndexError s.
Proof.
  intros s ty nm e Hsel Hnr Hno.
  unfold find; rewrite Hsel, Hnr.
  destruct (root_query (id e) s) as [|root rest] eqn:Eq; [reflexivity|].
  assert (H : In root (root_query (id e) s)) by (rewrite Eq; left; reflexivity).
  apply root_query_sound in H; destruct H as (_ & Hp & Hloop).
  destruct (Hno _ Hp Hloop).
Qed.

Lemma find_without_root_raises_witness :
  find "t" "a"
       (mkStore [mkNode 0 "t" "a" 1; mkNode 1 "t" "b" 1] [(0, (0, 1)); (1, (1, 0))] 2 2)
  = Raise IndexError
      (mkStore [mkNode 0 "t" "a" 1; mkNode 1 "t" "b" 1] [(0, (0, 1)); (1, (1, 0))] 2 2).
Proof.
  apply (find_without_root_raises
           (mkStore [mkNode 0 "t" "a" 1; mkNode 1 "t" "b" 1] [(0, (0, 1)); (1, (1, 0))] 2 2)
           "t" "a" (mkNode 0 "t" "a" 1)).
  - reflexivity.
  - reflexivity.
  - intros r _ [H | [H | []]]; inversion H; subst; discriminate.
Defined.

(** [global_id] asked twice gives the same identifier, also when the
    first call created the element. *)
Theorem global_id_idempotent :
  forall s ty nm i s1,
    wf s -> global_id ty nm s = Ok i s1 ->
    exists s2, global_id ty nm s1 = Ok i s2.
Proof.
  intros s ty nm i s1 W; unfold global_id, bind, ret.
  destruct (find_ok ty nm s W) as (r & s' & E & W' & _ & _ & e & Hsel & Hroot).
  rewrite E; intros H; inversion H; subst i s1; clear H.
  destruct (find_existing _ _ _ _ W' Hsel) as (r' & s2 & E' & _ & Hroot' & _).
  rewrite E'; exists s2; f_equal.
  eapply wf_root_unique; eassumption.
Qed.

Lemma global_id_idempotent_witness :
  exists s2,
    global_id "email" "a@x"
      (mkStore [mkNode 0 "email" "a@x" 1] [(0, (0, 0))] 1 1) = Ok 0 s2.
Proof.
  apply (global_id_idempotent empty_store "email" "a@x" 0
           (mkStore [mkNode 0 "email" "a@x" 1] [(0, (0, 0))] 1 1)).
  - exact wf_empty.
  - reflexivity.
Defined.

(** A [find], on any pair, changes the [global_id] of no existing
    element: path compression and the creation of a node keep every
    root. *)
Theorem find_keeps_global_ids :
  forall s ty nm ty' nm' i s1,
    wf s -> select ty nm s <> None ->
    global_id ty nm s = Ok i s1 ->
    exists s2, global_id ty nm (store_of (find ty' nm' s)) = Ok i s2.
Proof.
  intros s ty nm ty' nm' i s1 W Hex; unfold global_id, bind, ret.
  destruct (select ty nm s) as [e|] eqn:Hsel; [clear Hex | congruence].
  destruct (find_existing _ _ _ _ W Hsel) as (r & sa & Ea & _ & Hra & _).
  rewrite Ea; intros H; inversion H; subst i s1; clear H.
  destruct (find_ok ty' nm' s W) as (r' & s' & E & W' & X & _).
  rewrite E; simpl.
  destruct (find_existing _ _ _ _ W' (select_extends _ _ _ _ _ X Hsel))
    as (rb & sb & Eb & _ & Hrb & _).
  rewrite Eb; exists sb; f_equal.
  eapply wf_root_unique; [exact W' | eassumption | apply X; assumption].
Qed.

Lemma find_keeps_global_ids_witness :
  exists s2,
    global_id "phone" "555"
      (store_of
         (find "email" "b@x"
            (run_calls [CallUnion [("email", "a@x"); ("phone", "555")]%string]
                       empty_store)))
    = Ok 0 s2.
Proof.
  apply (find_keeps_global_ids
           (run_calls [CallUnion [("email", "a@x"); ("phone", "555")]%string] empty_store)
           "phone" "555" "email" "b@x" 0
           (mkStore [mkNode 0 "email" "a@x" 2; mkNode 1 "phone" "555" 1]
                    [(3, (0, 0)); (5, (1, 0))] 2 6)).
  - apply reachable_wf.
  - discriminate.
  - reflexivity.
Defined.

Lemma remove_first_length (r : nat * Rel) l :
  In r l -> S (List.length (remove_first r l)) = List.length l.
Proof.
  induction l as [|h t IH]; [intros []|].
  rewrite remove_first_cons; intros Hin.
  destruct (same_rel h r) eqn:E; [reflexivity|].
  destruct Hin as [-> | Hin].
  - assert (E' : same_rel r r = true) by (apply same_rel_eq; reflexivity).
    congruence.
  - simpl; rewrite (IH Hin); reflexivity.
Qed.

(** [_set_parent] on a node that has no parent relationship raises
    [TypeError], from [separate(None)], before it creates anything. *)
Theorem set_parent_without_parent_raises :
  forall s node parent,
    out_rels (relationships s) (id node) = [] ->
    _set_parent node parent s = Raise TypeError s.
Proof.
  intros s node parent H.
  unfold _set_parent, bind; rewrite match_one_any, H; reflexivity.
Qed.

Lemma set_parent_without_parent_raises_witness :
  _set_parent (mkNode 0 "t" "a" 1) (mkNode 0 "t" "a" 1)
              (mkStore [mkNode 0 "t" "a" 1] [] 1 0)
  = Raise TypeError (mkStore [mkNode 0 "t" "a" 1] [] 1 0).
Proof.
  apply (set_parent_without_parent_raises (mkStore [mkNode 0 "t" "a" 1] [] 1 0)).
  reflexivity.
Defined.

(** [_set_parent] on a node that has exactly one parent relationship, on
    any store: that relationship is deleted and exactly one is created,
    from the node to the parent, so that the node again has exactly one;
    the number of relationships stays, the relationships of every other
    node stay what they were, and no node changes. *)
Theorem set_parent_replaces_one :
  forall s node parent r,
    out_rels (relationships s) (id node) = [r] ->
    exists s',
      _set_parent node parent s = Ok tt s' /\
      nodes s' = nodes s /\
      List.length (relationships s') = List.length (relationships s) /\
      out_rels (relationships s') (id node) =
        [(next_rel s, (id node, id parent))] /\
      forall x, x <> id node ->
                out_rels (relationships s') x = out_rels (relationships s) x.
Proof.
  intros s node parent r H.
  assert (Hin : In r (out_rels (relationships s) (id node))) by (rewrite H; left; auto).
  apply filter_In in Hin; destruct Hin as (Hin & Hsrc); apply Nat.eqb_eq in Hsrc.
  unfold _set_parent, bind, separate, create_rel.
  rewrite match_one_any, H; simpl.
  eexists; split; [reflexivity|]; cbn [nodes relationships].
  rewrite <- Hsrc in H |- *.
  split; [reflexivity|]; split; [|split].
  - rewrite length_app; simpl.
    rewrite <- (remove_first_length r _ Hin); lia.
  - rewrite out_rels_app.
    apply (eq_trans (y := [] ++ [(next_rel s, (fst (snd r), id parent))]));
      [|reflexivity].
    f_equal; [exact (out_rels_remove_first r _ [] H)|].
    unfold out_rels; simpl; rewrite Nat.eqb_refl; reflexivity.
  - intros x Hne; rewrite out_rels_app.
    rewrite out_rels_remove_other
      by (intros E0; apply Hne; symmetry; exact E0).
    unfold out_rels at 2; simpl.
    match goal with
    | |- context [?a =? x] => destruct (Nat.eqb_spec a x) as [E0 | _]
    end; [|apply app_nil_r].
    exfalso; apply Hne; symmetry; exact E0.
Qed.

Lemma set_parent_replaces_one_witness :
  exists s',
    _set_parent (mkNode 1 "t" "b" 1) (mkNode 0 "t" "a" 2)
      (mkStore [mkNode 0 "t" "a" 2; mkNode 1 "t" "b" 1]
               [(0, (0, 0)); (1, (1, 1))] 2 2)
    = Ok tt s' /\
    nodes s' = [mkNode 0 "t" "a" 2; mkNode 1 "t" "b" 1] /\
    List.length (relationships s') = 2 /\
    out_rels (relationships s') 1 = [(2, (1, 0))] /\
    forall x, x <> 1 ->
              out_rels (relationships s') x =
              out_rels [(0, (0, 0)); (1, (1, 1))] x.
Proof.
  apply (set_parent_replaces_one
           (mkStore [mkNode 0 "t" "a" 2; mkNode 1 "t" "b" 1]
                    [(0, (0, 0)); (1, (1, 1))] 2 2)
           (mkNode 1 "t" "b" 1) (mkNode 0 "t" "a" 2) (1, (1, 1))).
  reflexivity.
Defined.

(** [union] of one pair is [find] of that pair: the only root is the
    heaviest, the loop skips it, and nothing is merged or weighed. *)
Theorem union_single_is_find :
  forall s x,
    union [x] s = (find (fst x) (snd x) ;;; ret tt) s.
Proof.
  intros s x; unfold union, bind, ret; simpl; unfold bind, ret.
  destruct (find (fst x) (snd x) s) as [r s' | e s']; [|reflexivity].
  simpl; rewrite Nat.eqb_refl; reflexivity.
Qed.

(** What [union] does to the nodes: it changes the weight of the
    heaviest root and nothing else.  The heaviest root gains the weight
    of every entry of [roots] with another [id], one entry at a time,
    so a root that was returned for several pairs is counted as often;
    the other roots keep the weight they had. *)
Theorem union_changes_only_heaviest_weight :
  forall s objects,
    wf s -> objects <> [] ->
    exists roots s1 heaviest s',
      find_all objects s = Ok roots s1 /\
      max_weight roots = Some heaviest /\
      union objects s = Ok tt s' /\
      next_uuid s' = next_uuid s1 /\
      nodes s' =
        map (fun m => if id m =? id heaviest
                      then add_weight m (moved heaviest roots) else m)
            (nodes s1).
Proof.
  intros s objects W Hne.
  destruct (union_ok objects s W Hne)
    as (roots & s1 & h & s' & E1 & W1 & X1 & Hres & Emax & Hh & Eu & Em & W' & _).
  destruct (Forall2_in_r _ _ _ _ Hres Hh) as (x & _ & Hx).
  destruct (resolves_root _ _ _ Hx) as (Hin & _).
  destruct (merge_spec roots h s1 (wf_ids _ W1) Hin) as (s2 & Em' & Hu & Hn & _).
  { intros r Hr; destruct (Forall2_in_r _ _ _ _ Hres Hr) as (y & _ & Hy).
    apply (wf_parent _ W1), node_id_in, (resolves_root _ _ _ Hy). }
  rewrite Em in Em'; inversion Em'; subst s2; clear Em'.
  exists roots, s1, h, s'; repeat (split; [assumption|]).
  rewrite Hn; apply map_ext_in; intros m Hm; unfold replace_node.
  change (id (add_weight h (moved h roots))) with (id h).
  destruct (Nat.eqb_spec (id m) (id h)) as [E | _]; [|reflexivity].
  rewrite (NoDup_map_inj id _ _ _ (wf_ids _ W1) Hm Hin E); reflexivity.
Qed.

Lemma union_changes_only_heaviest_weight_witness :
  exists roots s1 heaviest s',
    find_all [("t", "a"); ("t", "b"); ("t", "b")]%string empty_store = Ok roots s1 /\
    max_weight roots = Some heaviest /\
    union [("t", "a"); ("t", "b"); ("t", "b")]%string empty_store = Ok tt s' /\
    next_uuid s' = next_uuid s1 /\
    nodes s' =
      map (fun m => if id m =? id heaviest
                    then add_weight m (moved heaviest roots) else m)
          (nodes s1).
Proof.
  apply (union_changes_only_heaviest_weight empty_store); [exact wf_empty | discriminate].
Defined.

(** [union] merges whole sets: every element whose root, before the
    call, is one of the roots that the finds return ends up under the
    heaviest root, whether the input names it or not, and every other
    element keeps its root. *)
Theorem union_merges_whole_sets :
  forall s objects,
    wf s -> objects <> [] ->
    exists roots s1 heaviest s',
      find_all objects s = Ok roots s1 /\
      max_weight roots = Some heaviest /\
      union objects s = Ok tt s' /\
      forall a t, rootof (rels s) a t ->
                  rootof (rels s') a (if among roots t then id heaviest else t).
Proof.
  intros s objects W Hne.
  destruct (union_ok objects s W Hne)
    as (roots & s1 & h & s' & E1 & W1 & X1 & Hres & Emax & Hh & Eu & Em & W' & Hk & Hred & Hkept & Hflow).
  exists roots, s1, h, s'; repeat (split; [assumption|]).
  intros a t Hat; apply X1, Hflow in Hat.
  destruct (Nat.eqb_spec t (id h)) as [E | _]; simpl in Hat; [|assumption].
  assert (Ha : among roots (id h) = true) by (apply among_true; eauto).
  rewrite E, Ha; assumption.
Qed.

Lemma union_merges_whole_sets_witness :
  exists roots s1 heaviest s',
    find_all [("phone", "555"); ("email", "b@x")]%string
       (run_calls [CallUnion [("email", "a@x"); ("phone", "555")]%string] empty_store)
    = Ok roots s1 /\
    max_weight roots = Some heaviest /\
    union [("phone", "555"); ("email", "b@x")]%string
       (run_calls [CallUnion [("email", "a@x"); ("phone", "555")]%string] empty_store)
    = Ok tt s' /\
    forall a t,
      rootof (rels (run_calls [CallUnion [("email", "a@x"); ("phone", "555")]%string]
                              empty_store)) a t ->
      rootof (rels s') a (if among roots t then id heaviest else t).
Proof.
  apply (union_merges_whole_sets
           (run_calls [CallUnion [("email", "a@x"); ("phone", "555")]%string] empty_store));
    [apply reachable_wf | discriminate].
Defined.

Lemma grows_refl s : grows s s.
Proof. exists []; symmetry; apply app_nil_r. Qed.

Lemma grows_trans s1 s2 s3 : grows s1 s2 -> grows s2 s3 -> grows s1 s3.
Proof.
  intros (n1 & E1) (n2 & E2); exists (n1 ++ n2).
  rewrite E2, E1; symmetry; apply app_assoc.
Qed.

Lemma extends_grows s s' : extends s s' -> grows s s'.
Proof.
  intros [(new & E) _]; exists (map key new); rewrite E; apply map_app.
Qed.

Lemma find_grows ty nm s : wf s -> grows s (store_of (find ty nm s)).
Proof.
  intros W; destruct (find_ok ty nm s W) as (r & s' & E & _ & X & _).
  rewrite E; apply extends_grows, X.
Qed.

Lemma union_grows objects s : wf s -> grows s (store_of (union objects s)).
Proof.
  intros W; destruct objects as [|x t].
  - rewrite union_empty; apply grows_refl.
  - destruct (union_ok (x :: t) s W) as (roots & s1 & h & s' & H); [discriminate|].
    destruct H as (_ & _ & X & _ & _ & _ & E & _ & _ & Hk & _).
    rewrite E; simpl; eapply grows_trans; [apply extends_grows, X|].
    exists []; rewrite app_nil_r; assumption.
Qed.

Lemma union_from_stream_grows stream : forall s,
  wf s -> grows s (store_of (union_from_stream stream s)).
Proof.
  induction stream as [|row t IH]; intros s W; simpl; [apply grows_refl|].
  unfold bind; pose proof (union_wf (matches row) s W) as W1.
  pose proof (union_grows (matches row) s W) as G1.
  destruct (union (matches row) s) as [[] s1 | e s1]; simpl in *; [|assumption].
  eapply grows_trans; [eassumption | apply IH, W1].
Qed.

Lemma run_call_grows c s : wf s -> grows s (run_call s c).
Proof.
  intros W; destruct c; simpl.
  - apply find_grows, W.
  - apply union_grows, W.
  - apply union_from_stream_grows, W.
  - unfold global_id, bind; pose proof (find_grows ty nm s W) as H.
    destruct (find ty nm s); assumption.
Qed.

(** No call deletes a node or changes the [id], [type] or [name] of
    one: whatever the calls made after a store is reached, whether they
    return or raise, the nodes of that store are still there, in the
    same order, and new nodes only come after them. *)
Theorem nodes_are_never_deleted :
  forall before after,
    grows (run_calls before empty_store)
          (run_calls (before ++ after) empty_store).
Proof.
  intros before after; unfold run_calls; rewrite fold_left_app.
  fold (run_calls before empty_store).
  generalize (reachable_wf before); generalize (run_calls before empty_store).
  induction after as [|c t IH]; intros s W; simpl; [apply grows_refl|].
  eapply grows_trans; [apply run_call_grows, W | apply IH, run_call_wf, W].
Qed.

Lemma select_none_pair ty nm s :
  select ty nm s = None -> ~ In (ty, nm) (map pair_of (nodes s)).
Proof.
  unfold select; intros Hn Hin; apply in_map_iff in Hin.
  destruct Hin as (n & E & Hin); eapply find_none in Hn; [|eassumption].
  unfold pair_of in E; inversion E; subst.
  rewrite !String.eqb_refl in Hn; discriminate.
Qed.

Lemma map_pair_of_key l l' : map key l = map key l' -> map pair_of l = map pair_of l'.
Proof.
  revert l'; induction l as [|m t IH]; intros [|m' t'] E; simpl in *;
    try discriminate; [reflexivity|].
  inversion E; unfold pair_of; f_equal; [congruence | auto].
Qed.

Lemma find_pairs ty nm s :
  wf s -> NoDup (map pair_of (nodes s)) ->
  NoDup (map pair_of (nodes (store_of (find ty nm s)))).
Proof.
  intros W Hnd; destruct (select ty nm s) as [e|] eqn:Hsel.
  - destruct (find_existing _ _ _ _ W Hsel) as (r & s' & E & _ & _ & Hn & _).
    rewrite E; simpl; rewrite Hn; assumption.
  - rewrite (find_new _ _ _ Hsel); simpl; rewrite map_app; simpl.
    apply NoDup_snoc; [assumption | apply select_none_pair, Hsel].
Qed.

Lemma find_all_pairs objects : forall s roots s1,
  wf s -> NoDup (map pair_of (nodes s)) ->
  find_all objects s = Ok roots s1 ->
  NoDup (map pair_of (nodes s1)).
Proof.
  induction objects as [|x t IH]; intros s roots s1 W Hnd; simpl.
  - unfold ret; intros H; inversion H; subst; assumption.
  - unfold bind, ret.
    pose proof (find_wf (fst x) (snd x) s W) as W1.
    pose proof (find_pairs (fst x) (snd x) s W Hnd) as P1.
    destruct (find (fst x) (snd x) s) as [r sa | e sa]; [|discriminate].
    simpl in *; destruct (find_all t sa) as [rs sb | e sb] eqn:E; [|discriminate].
    intros H; inversion H; subst; eapply IH; eassumption.
Qed.

Lemma union_pairs objects s :
  wf s -> NoDup (map pair_of (nodes s)) ->
  NoDup (map pair_of (nodes (store_of (union objects s)))).
Proof.
  intros W Hnd; destruct objects as [|x t].
  - rewrite union_empty; assumption.
  - destruct (union_ok (x :: t) s W) as (roots & s1 & h & s' & H); [discriminate|].
    destruct H as (E1 & _ & _ & _ & _ & _ & E & _ & _ & Hk & _).
    rewrite E; simpl; rewrite (map_pair_of_key _ _ Hk).
    eapply find_all_pairs; eassumption.
Qed.

Lemma union_from_stream_pairs stream : forall s,
  wf s -> NoDup (map pair_of (nodes s)) ->
  NoDup (map pair_of (nodes (store_of (union_from_stream stream s)))).
Proof.
  induction stream as [|row t IH]; intros s W Hnd; simpl; [assumption|].
  unfold bind; pose proof (union_wf (matches row) s W) as W1.
  pose proof (union_pairs (matches row) s W Hnd) as P1.
  destruct (union (matches row) s) as [[] s1 | e s1]; simpl in *; auto.
Qed.

Lemma run_call_pairs c s :
  wf s -> NoDup (map pair_of (nodes s)) ->
  NoDup (map pair_of (nodes (run_call s c))).
Proof.
  intros W Hnd; destruct c; simpl.
  - apply find_pairs; assumption.
  - apply union_pairs; assumption.
  - apply union_from_stream_pairs; assumption.
  - unfold global_id, bind; pose proof (find_pairs ty nm s W Hnd) as H.
    destruct (find ty nm s); assumption.
Qed.

(** In every store reached from the empty one there is at most one node
    for a pair of [type] and [name]: [find] creates a node only when
    [select] finds none. *)
Theorem one_node_per_pair :
  forall calls, NoDup (map pair_of (nodes (run_calls calls empty_store))).
Proof.
  intros calls; unfold run_calls.
  assert (H : forall s, wf s -> NoDup (map pair_of (nodes s)) ->
                        NoDup (map pair_of (nodes (fold_left run_call calls s)))).
  { induction calls as [|c t IH]; intros s W Hnd; simpl; [assumption|].
    apply IH; [apply run_call_wf, W | apply run_call_pairs; assumption]. }
  apply H; [exact wf_empty | constructor].
Qed.

(** In every store reached from the empty one the parent relationships
    form a forest: every node has a root, reached by following parents,
    and only one, and the only cycles are the self-loops of the roots. *)
Theorem reachable_store_is_forest :
  forall calls,
    (forall n, In n (nodes (run_calls calls empty_store)) ->
               exists r, rootof (rels (run_calls calls empty_store)) (id n) r /\
                         forall r', rootof (rels (run_calls calls empty_store)) (id n) r' ->
                                    r' = r) /\
    (forall a, path (rels (run_calls calls empty_store)) a a ->
               In (a, a) (rels (run_calls calls empty_store))).
Proof.
  intros calls; pose proof (reachable_wf calls) as W; split.
  - intros n Hn; destruct (wf_rooted _ W _ (node_id_in _ _ Hn)) as (r & Hr).
    exists r; split; [assumption|].
    intros r' Hr'; eapply wf_root_unique; eassumption.
  - intros a; apply wf_acyclic, W.
Qed.

(** The pairs that [union_from_stream] hands to [union] for a row are
    the entries of the row with a non-empty value, and no other. *)
Lemma matches_in row k v :
  In (k, v) (matches row) <-> In (k, Some v) row /\ v <> EmptyString.
Proof.
  unfold matches; rewrite in_flat_map; split.
  - intros ([k' [v'|]] & Hin & H); simpl in H; [|contradiction].
    destruct (String.eqb_spec v' EmptyString) as [E | Hne]; simpl in H; [contradiction|].
    destruct H as [H | []]; inversion H; subst; auto.
  - intros (Hin & Hne); exists (k, Some v); split; [assumption|]; simpl.
    destruct (String.eqb_spec v EmptyString); [contradiction | left; reflexivity].
Qed.

Lemma separate_names r : preserves names_nonempty (separate r).
Proof. intros s H; destruct r; exact H. Qed.

Lemma create_rel_names a b : preserves names_nonempty (create_rel a b).
Proof. intros s H; exact H. Qed.

Lemma set_parent_names node parent : preserves names_nonempty (_set_parent node parent).
Proof.
  intros s H; unfold _set_parent; cbv zeta.
  apply (preserves_bind names_nonempty); [apply separate_names | | assumption].
  intros _; apply create_rel_names.
Qed.

Lemma find_names ty nm :
  nm <> EmptyString -> preserves names_nonempty (find ty nm).
Proof.
  intros Hnm s H; unfold find.
  destruct (select ty nm s) as [e|].
  - destruct (is_root e s); [assumption|].
    destruct (root_query (id e) s) as [|root rest]; [assumption|].
    cbv zeta; apply (preserves_bind names_nonempty); [| | assumption].
    + apply preserves_for_each; intros a; apply set_parent_names.
    + intros _; apply preserves_ret.
  - simpl; intros n Hn; apply in_app_iff in Hn; destruct Hn as [Hn | [<- | []]];
      [apply H, Hn | exact Hnm].
Qed.

Lemma find_all_names objects :
  (forall x, In x objects -> snd x <> EmptyString) ->
  preserves names_nonempty (find_all objects).
Proof.
  induction objects as [|x t IH]; intros Hx; simpl; [apply preserves_ret|].
  apply preserves_bind; [apply find_names, Hx; left; reflexivity|].
  intros r; apply preserves_bind; [apply IH; intros; apply Hx; right; assumption|].
  intros rs; apply preserves_ret.
Qed.

Lemma union_names objects s :
  wf s -> names_nonempty s ->
  (forall x, In x objects -> snd x <> EmptyString) ->
  names_nonempty (store_of (union objects s)).
Proof.
  intros W H Hx; destruct objects as [|x0 t]; [rewrite union_empty; assumption|].
  destruct (union_ok (x0 :: t) s W) as (roots & s1 & h & s' & Hu); [discriminate|].
  destruct Hu as (E1 & _ & _ & _ & _ & _ & Eu & _ & _ & Hk & _).
  pose proof (find_all_names (x0 :: t) Hx s H) as H1; rewrite E1 in H1; simpl in H1.
  rewrite Eu; simpl; intros n Hn.
  assert (Hkey : In (key n) (map key (nodes s1)))
    by (rewrite <- Hk; apply in_map, Hn).
  apply in_map_iff in Hkey; destruct Hkey as (m & Em & Hm).
  assert (En : name m = name n) by (unfold key in Em; congruence).
  rewrite <- En; apply H1, Hm.
Qed.

(** [union_from_stream] never makes an element whose name is the empty
    string: on a well-formed store where every node has a non-empty
    name, every node still has one after the stream, whatever values
    are missing or empty in its rows, and whether the call returns or
    raises. *)
Theorem union_from_stream_never_names_empty :
  forall stream s,
    wf s -> names_nonempty s ->
    names_nonempty (store_of (union_from_stream stream s)).
Proof.
  induction stream as [|row t IH]; intros s W H; simpl; [assumption|].
  unfold bind.
  pose proof (union_wf (matches row) s W) as W1.
  assert (H1 : names_nonempty (store_of (union (matches row) s))).
  { apply union_names; [assumption | assumption|].
    intros [k v] Hkv; apply matches_in in Hkv; tauto. }
  destruct (union (matches row) s) as [[] s1 | e s1]; simpl in *; auto.
Qed.

Lemma union_from_stream_never_names_empty_witness :
  names_nonempty
    (store_of
       (union_from_stream
          [[("email", Some "a@x"); ("phone", Some "")];
           [("email", None); ("phone", Some "555")];
           [("email", Some ""); ("phone", None)]]%string
          empty_store)).
Proof.
  apply (union_from_stream_never_names_empty
           [[("email", Some "a@x"); ("phone", Some "")];
            [("email", None); ("phone", Some "555")];
            [("email", Some ""); ("phone", None)]]%string
           empty_store).
  - exact wf_empty.
  - intros n [].
Defined.

(** Feeding a stream in two parts, one call after the other, is feeding
    it whole; an exception in the first part ends both. *)
Theorem union_from_stream_app :
  forall stream1 stream2 s,
    union_from_stream (stream1 ++ stream2) s =
    (union_from_stream stream1 ;;; union_from_stream stream2) s.
Proof.
  induction stream1 as [|row t IH]; intros stream2 s; simpl; [reflexivity|].
  unfold bind.
  destruct (union (matches row) s) as [[] s1 | e s1]; [|reflexivity].
  rewrite IH; reflexivity.
Qed.

(** On a well-formed store [union_from_stream] returns when every row
    has at least one non-empty value, and it leaves the store well
    formed. *)
Theorem union_from_stream_returns :
  forall stream s,
    wf s ->
    (forall row, In row stream -> matches row <> []) ->
    exists s', union_from_stream stream s = Ok tt s' /\ wf s'.
Proof.
  induction stream as [|row t IH]; intros s W Hrows; simpl.
  - exists s; split; [reflexivity | assumption].
  - destruct (union_ok (matches row) s W (Hrows row (or_introl eq_refl)))
      as (roots & s1 & h & s' & H).
    destruct H as (_ & _ & _ & _ & _ & _ & E & _ & W' & _).
    unfold bind; rewrite E; apply IH; [assumption|].
    intros r Hr; apply Hrows; right; assumption.
Qed.

Lemma union_from_stream_returns_witness :
  exists s',
    union_from_stream
      [[("email", Some "a@x"); ("phone", Some "")];
       [("email", Some "a@x"); ("phone", Some "555")]]%string
      empty_store = Ok tt s' /\ wf s'.
Proof.
  apply (union_from_stream_returns
           [[("email", Some "a@x"); ("phone", Some "")];
            [("email", Some "a@x"); ("phone", Some "555")]]%string
           empty_store).
  - exact wf_empty.
  - intros row [<- | [<- | []]]; discriminate.
Defined.

(** *** The weight invariant *)

Lemma forest_root_spec s n :
  wf s -> In (id n) (map id (nodes s)) ->
  exists r, forest_root n s = Some r /\ rootof (rels s) (id n) r.
Proof.
  intros W Hin; unfold forest_root.
  destruct (is_root n s) eqn:Er.
  - exists (id n); split; [reflexivity|].
    split; [apply is_root_true; assumption | auto].
  - assert (Hnot : ~ In (id n, id n) (rels s)).
    { intros H; apply is_root_true in H; congruence. }
    destruct (wf_rooted _ W _ Hin) as (r0 & Hloop & [E | Hp]);
      [rewrite <- E in Hloop; contradiction|].
    assert (Hne : id n <> r0) by (intros E; rewrite <- E in Hloop; contradiction).
    destruct (root_query_complete _ _ _ Hp Hne Hloop
                (proj1 (wf_closed _ W _ _ Hloop))) as (m & Hm).
    destruct (root_query (id n) s) as [|root rest] eqn:Eq; [contradiction|].
    assert (Hroot : In root (root_query (id n) s)) by (rewrite Eq; left; reflexivity).
    apply root_query_sound in Hroot; destruct Hroot as (_ & Hpath & Hself).
    exists (id root); split; [reflexivity | split; auto].
Qed.

Lemma root_id_spec s n :
  wf s -> In (id n) (map id (nodes s)) -> rootof (rels s) (id n) (root_id s n).
Proof.
  intros W Hin; destruct (forest_root_spec s n W Hin) as (r & E & Hr).
  unfold root_id; rewrite E; assumption.
Qed.

Lemma class_size_root_id s r :
  wf s ->
  class_size r s = List.length (filter (fun n => root_id s n =? r) (nodes s)).
Proof.
  intros W; unfold class_size; f_equal; apply filter_ext_in; intros n Hn.
  destruct (forest_root_spec s n W (node_id_in _ _ Hn)) as (t & E & _).
  unfold root_id; rewrite E; reflexivity.
Qed.

(** When roots move along [f] from [s] to [s'], so does [root_id]. *)
Lemma root_id_flow s s' f n n' :
  wf s -> wf s' ->
  In (id n) (map id (nodes s)) -> In (id n') (map id (nodes s')) ->
  id n' = id n ->
  (forall a t, rootof (rels s) a t -> rootof (rels s') a (f t)) ->
  root_id s' n' = f (root_id s n).
Proof.
  intros W W' Hin Hin' E Hflow.
  pose proof (root_id_spec s n W Hin) as Hr.
  pose proof (root_id_spec s' n' W' Hin') as Hr'.
  rewrite E in Hr'; eapply wf_root_unique; [exact W' | eassumption | auto].
Qed.

Lemma filter_map_length {A B} (g : A -> B) (p : B -> bool) l :
  List.length (filter p (map g l)) = List.length (filter (fun x => p (g x)) l).
Proof.
  induction l as [|x t IH]; simpl; [reflexivity|].
  destruct (p (g x)); simpl; rewrite IH; reflexivity.
Qed.

Lemma filter_or_length {A} (p q : A -> bool) l :
  (forall x, p x = true -> q x = false) ->
  List.length (filter (fun x => p x || q x) l) =
  List.length (filter p l) + List.length (filter q l).
Proof.
  intros Hd; induction l as [|x t IH]; simpl; [reflexivity|].
  destruct (p x) eqn:Ep; simpl.
  - rewrite (Hd x Ep), IH; reflexivity.
  - destruct (q x); simpl; rewrite IH; lia.
Qed.

(** The nodes whose root is one of [R], counted root by root. *)
Lemma count_by_root (g : Node -> nat) (l : list Node) (R : list Node) :
  NoDup (map id R) ->
  List.length (filter (fun n => among R (g n)) l) =
  list_sum (map (fun r => List.length (filter (fun n => g n =? id r) l)) R).
Proof.
  induction R as [|r R' IH]; simpl; intros Hnd.
  - induction l as [|x t IHl]; simpl; auto.
  - inversion Hnd as [|? ? Hr Hnd']; subst.
    rewrite <- (IH Hnd'), <- filter_or_length.
    + f_equal; apply filter_ext; intros n; rewrite (Nat.eqb_sym (g n)); reflexivity.
    + intros n E; apply Nat.eqb_eq in E.
      destruct (among R' (g n)) eqn:Ea; [|reflexivity].
      apply among_true in Ea; destruct Ea as (a & Ha & Ea).
      exfalso; apply Hr; rewrite <- E, <- Ea; apply in_map; assumption.
Qed.

Lemma filter_same_id h R :
  NoDup (map id R) -> In h R -> filter (fun r => id r =? id h) R = [h].
Proof.
  induction R as [|r R' IH]; simpl; [tauto|]; intros Hnd Hin.
  inversion Hnd as [|? ? Hr Hnd']; subst.
  destruct (Nat.eqb_spec (id r) (id h)) as [E | Hne].
  - assert (r = h).
    { destruct Hin as [? | Hin]; [assumption|].
      exfalso; apply Hr; rewrite E; apply in_map; assumption. }
    subst r; f_equal.
    clear IH Hin Hnd Hnd' E; induction R' as [|x t IHt]; simpl; [reflexivity|].
    destruct (Nat.eqb_spec (id x) (id h)) as [E | _].
    + exfalso; apply Hr; rewrite <- E; left; reflexivity.
    + apply IHt; intros H; apply Hr; right; assumption.
  - destruct Hin as [-> | Hin]; [congruence | auto].
Qed.

Lemma list_sum_split {A} (f : A -> nat) (p : A -> bool) l :
  list_sum (map f l) =
  list_sum (map f (filter p l)) + list_sum (map f (filter (fun x => negb (p x)) l)).
Proof.
  induction l as [|x t IH]; simpl; [reflexivity|].
  destruct (p x); simpl; rewrite IH; lia.
Qed.

Lemma weights_of_roots h R :
  NoDup (map id R) -> In h R ->
  list_sum (map weight R) = weight h + moved h R.
Proof.
  intros Hnd Hin; unfold moved.
  rewrite (list_sum_split weight (fun r => id r =? id h) R),
    (filter_same_id h R Hnd Hin); simpl; lia.
Qed.

Lemma root_id_kept s s' n :
  wf s -> wf s' ->
  In (id n) (map id (nodes s)) -> In (id n) (map id (nodes s')) ->
  (forall a t, rootof (rels s) a t -> rootof (rels s') a t) ->
  root_id s' n = root_id s n.
Proof.
  intros W W' Hin Hin' Hkeep.
  apply (root_id_flow s s' (fun t => t) n n); auto.
Qed.

Lemma root_id_of_root s n :
  wf s -> In (id n) (map id (nodes s)) ->
  (is_root n s = true <-> root_id s n = id n).
Proof.
  intros W Hin; pose proof (root_id_spec s n W Hin) as Hr; split.
  - intros H; apply is_root_true in H.
    eapply wf_root_unique; [exact W | eassumption | split; auto].
  - intros E; rewrite E in Hr; apply is_root_true, Hr.
Qed.

Lemma root_id_is_node s n :
  wf s -> In (id n) (map id (nodes s)) -> In (root_id s n) (map id (nodes s)).
Proof.
  intros W Hin; destruct (root_id_spec s n W Hin) as (Hloop & _).
  exact (proj1 (wf_closed _ W _ _ Hloop)).
Qed.

(** The weight invariant goes from [s] to a store with the same roots
    and with new nodes that are roots of weight 1. *)
Lemma weights_ok_extends s s' new :
  wf s -> wf s' -> weights_ok s ->
  nodes s' = nodes s ++ new ->
  (forall a t, rootof (rels s) a t -> rootof (rels s') a t) ->
  (forall m, In m new -> weight m = 1 /\ is_root m s' = true) ->
  weights_ok s'.
Proof.
  intros W W' Hok Hn Hkeep Hnew n Hin Hroot.
  assert (Hids : map id (nodes s') = map id (nodes s) ++ map id new)
    by (rewrite Hn; apply map_app).
  assert (Hnd : NoDup (map id (nodes s) ++ map id new))
    by (rewrite <- Hids; apply W').
  assert (Hold : forall x, In x (nodes s) -> In (id x) (map id (nodes s')))
    by (intros x Hx; rewrite Hids; apply in_app_iff; left; apply in_map, Hx).
  assert (Hfresh : forall m x, In m new -> In x (map id (nodes s)) -> id m <> x).
  { intros m x Hm Hx E; subst x.
    apply NoDup_app_remove_l in Hnd as Hnd2.
    clear - Hnd Hm Hx.
    induction (map id (nodes s)) as [|y t IH]; [contradiction|].
    simpl in Hnd; inversion Hnd; subst; destruct Hx as [-> | Hx]; [|auto].
    match goal with H : ~ In _ _ |- _ => apply H end.
    apply in_app_iff; right; apply in_map, Hm. }
  assert (Hsame : forall x, In x (nodes s) -> root_id s' x = root_id s x).
  { intros x Hx; apply root_id_kept; auto. apply in_map, Hx. }
  assert (Hself : forall m, In m new -> root_id s' m = id m).
  { intros m Hm; apply root_id_of_root; [assumption | | apply Hnew, Hm].
    rewrite Hids; apply in_app_iff; right; apply in_map, Hm. }
  rewrite (class_size_root_id s' _ W'), Hn, filter_app, length_app.
  rewrite Hn in Hin; apply in_app_iff in Hin; destruct Hin as [Hin | Hin].
  - assert (Hroot0 : is_root n s = true).
    { apply root_id_of_root; [assumption | apply in_map, Hin |].
      rewrite <- (Hsame n Hin); apply root_id_of_root; auto. }
    rewrite (Hok n Hin Hroot0), (class_size_root_id s _ W).
    rewrite (filter_ext_in (fun x => root_id s' x =? id n)
                           (fun x => root_id s x =? id n) (nodes s))
      by (intros x Hx; rewrite (Hsame x Hx); reflexivity).
    rewrite (filter_ext_in (fun x => root_id s' x =? id n) (fun _ => false) new).
    + assert (E : forall l : list Node, filter (fun _ => false) l = [])
        by (induction l; simpl; auto).
      rewrite E; simpl; lia.
    + intros m Hm; rewrite (Hself m Hm); apply Nat.eqb_neq.
      apply Hfresh; [assumption | apply in_map, Hin].
  - rewrite (proj1 (Hnew n Hin)).
    rewrite (filter_ext_in (fun x => root_id s' x =? id n) (fun _ => false) (nodes s)).
    + assert (E : forall l : list Node, filter (fun _ => false) l = [])
        by (induction l; simpl; auto).
      rewrite E; simpl.
      rewrite (filter_ext_in (fun x => root_id s' x =? id n)
                             (fun x => id x =? id n) new)
        by (intros m Hm; rewrite (Hself m Hm); reflexivity).
      rewrite (filter_same_id n new); [reflexivity | | assumption].
      eapply NoDup_app_remove_l; eassumption.
    + intros x Hx; rewrite (Hsame x Hx); apply Nat.eqb_neq.
      intros E; apply (Hfresh n (root_id s x) Hin); [|auto].
      apply root_id_is_node; [assumption | apply in_map, Hx].
Qed.

Lemma find_weights_ok ty nm s :
  wf s -> weights_ok s -> weights_ok (store_of (find ty nm s)).
Proof.
  intros W Hok; destruct (select ty nm s) as [e|] eqn:Hsel.
  - destruct (find_existing _ _ _ _ W Hsel) as (r & s' & E & _ & _ & Hn & _).
    destruct (find_existing_wf _ _ _ _ _ _ W Hsel E) as (W' & Hkeep).
    rewrite E; simpl; apply (weights_ok_extends s s' []); auto.
    + rewrite app_nil_r; assumption.
    + intros m [].
  - destruct (find_ok ty nm s W) as (r & s' & E & W' & X & _).
    rewrite (find_new _ _ _ Hsel) in E |- *; inversion E; subst r s'; simpl.
    apply (weights_ok_extends s _ [mkNode (next_uuid s) ty nm 1]); auto.
    + apply X.
    + intros m [<- | []]; split; [reflexivity|].
      apply is_root_true; rewrite rels_new_node; apply in_app_iff; simpl; auto.
Qed.

Lemma find_all_weights_ok objects : forall s roots s1,
  wf s -> weights_ok s ->
  find_all objects s = Ok roots s1 ->
  weights_ok s1.
Proof.
  induction objects as [|x t IH]; intros s roots s1 W Hok; simpl.
  - unfold ret; intros H; inversion H; subst; assumption.
  - unfold bind, ret.
    pose proof (find_wf (fst x) (snd x) s W) as W1.
    pose proof (find_weights_ok (fst x) (snd x) s W Hok) as P1.
    destruct (find (fst x) (snd x) s) as [r sa | e sa]; [|discriminate].
    simpl in *; destruct (find_all t sa) as [rs sb | e sb] eqn:E; [|discriminate].
    intros H; inversion H; subst; eapply IH; eassumption.
Qed.

(** [find] and [global_id] keep the weight invariant: compression moves
    no node to another set, and a created node is a root of weight 1
    that is alone in its set. *)
Theorem find_keeps_weights :
  forall s ty nm,
    wf s -> weights_ok s ->
    weights_ok (store_of (find ty nm s)) /\
    weights_ok (store_of (global_id ty nm s)).
Proof.
  intros s ty nm W Hok; pose proof (find_weights_ok ty nm s W Hok) as H.
  split; [assumption|].
  unfold global_id, bind; destruct (find ty nm s); assumption.
Qed.

Lemma find_keeps_weights_witness :
  weights_ok
    (store_of
       (find "phone" "555"
          (mkStore [mkNode 0 "email" "a@x" 2; mkNode 1 "phone" "555" 1]
                   [(0, (0, 0)); (2, (1, 0))] 2 3))) /\
  weights_ok
    (store_of
       (global_id "phone" "555"
          (mkStore [mkNode 0 "email" "a@x" 2; mkNode 1 "phone" "555" 1]
                   [(0, (0, 0)); (2, (1, 0))] 2 3))).
Proof.
  apply (find_keeps_weights
           (mkStore [mkNode 0 "email" "a@x" 2; mkNode 1 "phone" "555" 1]
                    [(0, (0, 0)); (2, (1, 0))] 2 3)).
  - apply (reachable_wf [CallUnion [("email", "a@x"); ("phone", "555")]%string]).
  - intros n [<- | [<- | []]] H; [reflexivity | discriminate].
Defined.

(** [union] keeps the weight invariant when the roots that its finds
    return are pairwise different nodes: the heaviest root then gains
    the size of each merged set once, and ends with the size of the
    merged set. *)
Theorem union_keeps_weights_when_roots_differ :
  forall s objects roots s1,
    wf s -> weights_ok s ->
    find_all objects s = Ok roots s1 ->
    NoDup (map id roots) ->
    weights_ok (store_of (union objects s)).
Proof.
  intros s objects roots s1 W Hok E1 Hnd.
  destruct objects as [|x0 objs]; [rewrite union_empty; assumption|].
  destruct (union_ok (x0 :: objs) s W) as (roots' & s1' & h & s' & H); [discriminate|].
  destruct H as (E1' & W1 & X1 & Hres & Emax & Hh & Eu & Em & W' & Hk & Hred & Hkept & Hflow).
  rewrite E1 in E1'; inversion E1'; subst roots' s1'; clear E1'.
  pose proof (find_all_weights_ok _ _ _ _ W Hok E1) as Hok1.
  assert (Hall : forall r, In r roots -> In r (nodes s1) /\ In (id r, id r) (rels s1)).
  { intros r Hr; destruct (Forall2_in_r _ _ _ _ Hres Hr) as (x & _ & Hx).
    eapply resolves_root; eassumption. }
  destruct (merge_spec roots h s1 (wf_ids _ W1) (proj1 (Hall h Hh))) as (s2 & Em' & Hu & Hn & _).
  { intros r Hr; apply (wf_parent _ W1), node_id_in, (proj1 (Hall r Hr)). }
  rewrite Em in Em'; inversion Em'; subst s2; clear Em'.
  rewrite Eu; simpl.
  set (h' := add_weight h (moved h roots)) in *.
  set (f := fun t => if (t =? id h) || among roots t then id h else t) in *.
  assert (Hids : map id (nodes s') = map id (nodes s1))
    by (rewrite Hn; apply map_id_replace).
  assert (Hroot_id : forall m, In m (nodes s1) ->
                               root_id s' (replace_node h' m) = f (root_id s1 m)).
  { intros m Hm; apply root_id_flow; auto.
    - apply in_map, Hm.
    - rewrite Hids; unfold replace_node.
      destruct (id m =? id h') eqn:E; [apply Nat.eqb_eq in E; rewrite <- E|];
        apply in_map, Hm.
    - unfold replace_node; destruct (id m =? id h') eqn:E; [|reflexivity].
      apply Nat.eqb_eq in E; symmetry; exact E. }
  assert (Hsize : forall r,
             class_size r s' =
             List.length (filter (fun m => f (root_id s1 m) =? r) (nodes s1))).
  { intros r; rewrite (class_size_root_id s' r W'), Hn, filter_map_length.
    f_equal; apply filter_ext_in; intros m Hm; rewrite (Hroot_id m Hm); reflexivity. }
  assert (Hamong : among roots (id h) = true) by (apply among_true; eauto).
  intros n Hin Hroot; rewrite Hsize.
  rewrite Hn in Hin; apply in_map_iff in Hin; destruct Hin as (m & <- & Hm).
  unfold replace_node in *; change (id h') with (id h) in *.
  destruct (Nat.eqb_spec (id m) (id h)) as [E | Hne].
  - (* the heaviest root *)
    change (id h') with (id h); change (weight h') with (weight h + moved h roots).
    rewrite <- (weights_of_roots h roots Hnd Hh).
    rewrite (filter_ext (fun m0 => f (root_id s1 m0) =? id h)
                        (fun m0 => among roots (root_id s1 m0))).
    + rewrite (count_by_root (root_id s1) (nodes s1) roots Hnd).
      f_equal; apply map_ext_in; intros r Hr.
      rewrite <- (class_size_root_id s1 (id r) W1).
      apply Hok1; [apply Hall, Hr | apply is_root_true, Hall, Hr].
    + intros m0; unfold f.
      destruct (Nat.eqb_spec (root_id s1 m0) (id h)) as [E0 | Hne0]; simpl.
      * rewrite Nat.eqb_refl, E0; symmetry; exact Hamong.
      * destruct (among roots (root_id s1 m0)); [apply Nat.eqb_refl|].
        apply Nat.eqb_neq; assumption.
  - (* another root *)
    apply is_root_true in Hroot.
    apply (redirected_in _ _ _ _ (id m) (id m) Hred) in Hroot.
    destruct (Nat.eqb_spec (id m) (id h)) as [? | _]; [contradiction|].
    simpl in Hroot.
    destruct (among roots (id m)) eqn:Ea; [exfalso; exact (Hne Hroot)|].
    rewrite (Hok1 m Hm (proj2 (is_root_true m s1) Hroot)).
    rewrite (class_size_root_id s1 _ W1); f_equal.
    apply filter_ext; intros m0; unfold f.
    destruct ((root_id s1 m0 =? id h) || among roots (root_id s1 m0)) eqn:Et;
      [|reflexivity].
    transitivity false.
    + apply Nat.eqb_neq; intros E0; rewrite E0, Ea in Et.
      apply Nat.eqb_neq in Hne; rewrite Hne in Et; discriminate.
    + symmetry; apply Nat.eqb_neq; intros E0; apply Hne; symmetry; exact E0.
Qed.

Lemma union_keeps_weights_when_roots_differ_witness :
  weights_ok
    (store_of
       (union [("phone", "555"); ("email", "b@x")]%string
          (mkStore [mkNode 0 "email" "a@x" 2; mkNode 1 "phone" "555" 1]
                   [(0, (0, 0)); (2, (1, 0))] 2 3))).
Proof.
  apply (union_keeps_weights_when_roots_differ
           (mkStore [mkNode 0 "email" "a@x" 2; mkNode 1 "phone" "555" 1]
                    [(0, (0, 0)); (2, (1, 0))] 2 3)
           [("phone", "555"); ("email", "b@x")]%string
           [mkNode 0 "email" "a@x" 2; mkNode 2 "email" "b@x" 1]
           (mkStore [mkNode 0 "email" "a@x" 2; mkNode 1 "phone" "555" 1;
                     mkNode 2 "email" "b@x" 1]
                    [(3, (0, 0)); (5, (1, 0)); (6, (2, 2))] 3 7)).
  - apply (reachable_wf [CallUnion [("email", "a@x"); ("phone", "555")]%string]).
  - intros n [<- | [<- | []]] H; [reflexivity | discriminate].
  - reflexivity.
  - repeat constructor; simpl; intuition discriminate.
Defined.

Lemma filter_all {A} (p : A -> bool) l :
  (forall x, In x l -> p x = true) -> filter p l = l.
Proof.
  induction l as [|x t IH]; simpl; intros H; [reflexivity|].
  rewrite (H x (or_introl eq_refl)), IH; auto.
Qed.

Lemma filter_none {A} (p : A -> bool) l :
  (forall x, In x l -> p x = false) -> filter p l = [].
Proof.
  induction l as [|x t IH]; simpl; intros H; [reflexivity|].
  rewrite (H x (or_introl eq_refl)), IH; auto.
Qed.

(** The relationships that leave the nodes of [I], counted node by node. *)
Lemma count_by_source (es : list Rel) (I : list nat) :
  NoDup I ->
  List.length (filter (fun e => existsb (Nat.eqb (fst e)) I) es) =
  list_sum (map (fun i => List.length (out_edges es i)) I).
Proof.
  induction I as [|i I' IH]; simpl; intros Hnd.
  - rewrite filter_none; auto.
  - inversion Hnd as [|? ? Hi Hnd']; subst.
    rewrite <- (IH Hnd'); unfold out_edges.
    apply filter_or_length.
    intros e E; apply Nat.eqb_eq in E.
    destruct (existsb (Nat.eqb (fst e)) I') eqn:Ex; [|reflexivity].
    apply existsb_exists in Ex; destruct Ex as (j & Hj & Ej).
    apply Nat.eqb_eq in Ej; exfalso; apply Hi; congruence.
Qed.

(** In every store reached from the empty one there are as many parent
    relationships as nodes: [_set_parent] deletes one relationship for
    each one it creates, and [find] creates one with each node. *)
Theorem as_many_relationships_as_nodes :
  forall calls,
    List.length (relationships (run_calls calls empty_store)) =
    List.length (nodes (run_calls calls empty_store)).
Proof.
  intros calls; pose proof (reachable_wf calls) as W.
  set (s := run_calls calls empty_store) in *.
  rewrite <- (length_map snd (relationships s)), <- (length_map id (nodes s)).
  fold (rels s).
  rewrite <- (filter_all (fun e => existsb (Nat.eqb (fst e)) (map id (nodes s))) (rels s)).
  - rewrite (count_by_source _ _ (wf_ids _ W)).
    rewrite (map_ext_in _ (fun _ => 1)).
    + induction (map id (nodes s)) as [|i t IH]; simpl; [reflexivity | rewrite IH; reflexivity].
    + intros i Hi; destruct (wf_parent _ W _ Hi) as (p & Hp); rewrite Hp; reflexivity.
  - intros [a b] Hab; apply existsb_exists; exists a; split.
    + exact (proj1 (wf_closed _ W _ _ Hab)).
    + apply Nat.eqb_refl.
Qed.
